(** * Route optimisation service (ml-service/services/route_optimization.py)

    A shallow embedding of [RouteOptimizer] and the properties of its
    multi-stop route sequencing engine.

    Modelling choices.
    - A stop is a Python [dict]; the optimiser only reads it with
      [.get(key, "")] and compares whole dicts in [list.remove], so a stop
      is a finite map from strings to strings ([gmap string string]), which
      has the dict's extensional equality and may carry further keys.
    - Python [str] is [string]; [ord] is the character code.
    - Distances are Python [int]s, hence [Z].  Values obtained by true
      division [/] are exact rationals [Q] in place of floats; the service
      only divides integers by 60 or by a total distance, and rounds the
      quotient to one or two decimals.  The arrival offset of an entry is
      kept as a number, not as the string it is printed to.
    - Raised exceptions are explicit: every fallible operation returns an
      [outcome]. *)

From Stdlib Require Import ZArith QArith Qround Qabs Lqa String Ascii.
From Stdlib Require Import DecimalString DecimalNat.
From stdpp Require Import gmap strings list.

Local Open Scope Z_scope.

(** ** Python primitives used by the service *)

Module Py.

(** The exceptions the built-ins used by the optimiser can raise. *)
Inductive exn : Set :=
| ZeroDivisionError
| TypeError
| ValueError
| IndexError
| KeyError.

(** Result of running a piece of Python: a value, a raised exception, or
    [Diverge] when a [while] loop was not finished within the number of
    iterations it was given. *)
Inductive outcome (A : Type) : Type :=
| Ok (a : A)
| Raise (e : exn)
| Diverge.
Arguments Ok {A} a.
Arguments Raise {A} e.
Arguments Diverge {A}.

Definition bind {A B} (m : outcome A) (k : A → outcome B) : outcome B :=
  match m with
  | Ok a => k a
  | Raise e => Raise e
  | Diverge => Diverge
  end.

(** [d.get(k, dflt)] *)
Definition dict_get (d : gmap string string) (k dflt : string) : string :=
  default dflt (d !! k).

(** [sum(ord(c) for c in s)] *)
Fixpoint sum_ord (s : string) : Z :=
  match s with
  | EmptyString => 0
  | String c rest => Z.of_nat (nat_of_ascii c) + sum_ord rest
  end.

(** [min(l, key=key)]: the first element whose key is minimal;
    [ValueError] on an empty list. *)
Fixpoint min_from {A} (key : A → Z) (best : A) (l : list A) : A :=
  match l with
  | [] => best
  | x :: rest => min_from key (if key x <? key best then x else best) rest
  end.

Definition min_key {A} (key : A → Z) (l : list A) : outcome A :=
  match l with
  | [] => Raise ValueError
  | x :: rest => Ok (min_from key x rest)
  end.

(** [l.remove(x)]: drops the first element equal to [x]; [ValueError]
    when there is none. *)
Fixpoint list_remove {A} `{EqDecision A} (x : A) (l : list A)
  : outcome (list A) :=
  match l with
  | [] => Raise ValueError
  | y :: rest =>
      if decide (y = x) then Ok rest
      else bind (list_remove x rest) (λ rest', Ok (y :: rest'))
  end.

(** [itertools.permutations(l)]: all orderings of the positions of [l],
    in lexicographic order of the positions.  [selections l] lists, in
    order, each element of [l] with the remaining elements. *)
Fixpoint selections {A} (l : list A) : list (A * list A) :=
  match l with
  | [] => []
  | x :: rest =>
      (x, rest) :: ((λ yr, (yr.1, x :: yr.2)) <$> selections rest)
  end.

Fixpoint permutations_of_size {A} (n : nat) (l : list A) : list (list A) :=
  match n with
  | O => [[]]
  | S n' =>
      selections l ≫= λ xr, cons xr.1 <$> permutations_of_size n' xr.2
  end.

Definition itertools_permutations {A} (l : list A) : list (list A) :=
  permutations_of_size (length l) l.

(** Rounding to the nearest integer, ties to the even one. *)
Definition round_half_even (x : Q) : Z :=
  let f := Qfloor x in
  match Qcompare (x - inject_Z f) (1 # 2) with
  | Lt => f
  | Gt => f + 1
  | Eq => if Z.even f then f else f + 1
  end.

(** [round(x, ndigits)] on the exact value of [x].  The service rounds
    integers, which [round] returns unchanged, and quotients of an integer
    by 60 to two decimals, which are never midway between two
    hundredths. *)
Definition round (x : Q) (ndigits : nat) : Q :=
  let scale := inject_Z (10 ^ Z.of_nat ndigits) in
  (inject_Z (round_half_even (x * scale)) / scale)%Q.

(** [max(a, b)]: [b] only when it is strictly greater than [a]. *)
Definition max (a b : Q) : Q :=
  match Qcompare b a with
  | Gt => b
  | _ => a
  end.

End Py.
Import Py.

(** ** The optimiser *)

Abbreviation stop := (gmap string string).

Definition stop_location (s : stop) : string := dict_get s "location" "".
Definition stop_shipment_id (s : stop) : string := dict_get s "shipment_id" "".

(** An entry of ["optimized_sequence"].  [estimated_arrival] holds the
    cumulative travel time in hours, the number that the service prints
    with one decimal as ["+<t>h"]. *)
Record formatted_stop : Type := FormattedStop {
  shipment_id : string;
  sequence : Z;
  location : string;
  estimated_arrival : Q;
  distance_from_previous : Q
}.

Record response : Type := Response {
  optimized_sequence : list formatted_stop;
  total_distance_km : Q;
  total_time_hours : Q;
  fuel_savings_percent : Q
}.

(** [self.avg_speed_kmh] *)
Definition avg_speed_kmh : Z := 60.

Definition _estimate_distance (loc1 loc2 : string) : Z :=
  if decide (loc1 = loc2) then 0
  else
    let hash1 := sum_ord loc1 in
    let hash2 := sum_ord loc2 in
    50 + (Z.abs (hash1 - hash2)) mod 450.

(** The loop of [_calculate_total_distance], with its two variables. *)
Fixpoint total_distance_loop (route : list stop) (current : string) (total : Z)
  : Z :=
  match route with
  | [] => total
  | s :: rest =>
      total_distance_loop rest (stop_location s)
        (total + _estimate_distance current (stop_location s))
  end.

Definition _calculate_total_distance (route : list stop) (start : string) : Z :=
  total_distance_loop route start 0.

(** The loop of [_format_route_response] over [enumerate(route)]. *)
Fixpoint format_stops (route : list stop) (idx : Z) (current_location : string)
    (current_time : Q) : list formatted_stop :=
  match route with
  | [] => []
  | s :: rest =>
      let distance_from_prev :=
        _estimate_distance current_location (stop_location s) in
      let travel_time :=
        (inject_Z distance_from_prev / inject_Z avg_speed_kmh)%Q in
      let current_time := (current_time + travel_time)%Q in
      {| shipment_id := stop_shipment_id s;
         sequence := idx + 1;
         location := stop_location s;
         estimated_arrival := current_time;
         distance_from_previous := round (inject_Z distance_from_prev) 2 |}
      :: format_stops rest (idx + 1) (stop_location s) current_time
  end.

Definition _format_route_response (route : list stop) (start : string)
    (total_distance : Z) : outcome response :=
  let optimized_stops := format_stops route 0 start 0%Q in
  let total_time := (inject_Z total_distance / inject_Z avg_speed_kmh)%Q in
  let unoptimized_distance := _calculate_total_distance route start in
  if decide (unoptimized_distance = 0) then Raise ZeroDivisionError
  else
    let savings :=
      Py.max 0%Q
        ((inject_Z (unoptimized_distance - total_distance)
          / inject_Z unoptimized_distance) * 100)%Q in
    Ok {| optimized_sequence := optimized_stops;
          total_distance_km := round (inject_Z total_distance) 2;
          total_time_hours := round total_time 2;
          fuel_savings_percent := round savings 1 |}.

Definition _empty_route : response :=
  {| optimized_sequence := [];
     total_distance_km := 0%Q;
     total_time_hours := 0%Q;
     fuel_savings_percent := 0%Q |}.

Definition _single_stop_route (s : stop) (start : string) : response :=
  let distance := _estimate_distance start (stop_location s) in
  let time := (inject_Z distance / inject_Z avg_speed_kmh)%Q in
  {| optimized_sequence :=
       [ {| shipment_id := stop_shipment_id s;
            sequence := 1;
            location := stop_location s;
            estimated_arrival := time;
            distance_from_previous := round (inject_Z distance) 2 |} ];
     total_distance_km := round (inject_Z distance) 2;
     total_time_hours := round time 2;
     fuel_savings_percent := 0%Q |}.

(** *** Exact sequencer *)

(** [best_distance] starts as [float('inf')]. *)
Inductive bound : Set :=
| Inf
| Fin (d : Z).

Definition below (d : Z) (b : bound) : bool :=
  match b with
  | Inf => true
  | Fin b' => d <? b'
  end.

(** The two variables of the search: [best_route] ([None] at first) and
    [best_distance]. *)
Definition search_state : Type := option (list stop) * bound.

Definition brute_force_step (start : string) (st : search_state)
    (perm : list stop) : search_state :=
  let distance := _calculate_total_distance perm start in
  if below distance st.2 then (Some perm, Fin distance) else st.

Definition brute_force_search (stops : list stop) (start : string)
  : search_state :=
  foldl (brute_force_step start) (None, Inf) (itertools_permutations stops).

Definition _brute_force_optimize (stops : list stop) (start : string)
  : outcome response :=
  match brute_force_search stops start with
  | (Some best_route, Fin best_distance) =>
      _format_route_response best_route start best_distance
  | _ => Raise TypeError
  end.

(** *** Heuristic sequencer *)

Record nn_state : Type := NNState {
  unvisited : list stop;
  route : list stop;
  current_location : string;
  total_distance : Z
}.

Definition nn_init (stops : list stop) (start : string) : nn_state :=
  {| unvisited := stops; route := []; current_location := start;
     total_distance := 0 |}.

(** One iteration of the [while unvisited] loop. *)
Definition nn_body (st : nn_state) : outcome nn_state :=
  bind (min_key (λ s, _estimate_distance (current_location st) (stop_location s))
                (unvisited st)) (λ nearest,
  let distance :=
    _estimate_distance (current_location st) (stop_location nearest) in
  bind (list_remove nearest (unvisited st)) (λ unvisited',
  Ok {| unvisited := unvisited';
        route := route st ++ [nearest];
        current_location := stop_location nearest;
        total_distance := total_distance st + distance |})).

Fixpoint nn_loop (iterations : nat) (st : nn_state) : outcome nn_state :=
  match unvisited st with
  | [] => Ok st
  | _ :: _ =>
      match iterations with
      | O => Diverge
      | S n => bind (nn_body st) (nn_loop n)
      end
  end.

Definition nearest_neighbor_search (stops : list stop) (start : string)
  : outcome nn_state :=
  nn_loop (length stops) (nn_init stops start).

Definition _nearest_neighbor_optimize (stops : list stop) (start : string)
  : outcome response :=
  bind (nearest_neighbor_search stops start) (λ st,
  _format_route_response (route st) start (total_distance st)).

(** *** Entry point *)

Definition optimize (stops : list stop) (start_location : string)
  : outcome response :=
  if decide (length stops = 0%nat) then Ok _empty_route
  else if decide (length stops = 1%nat) then
    match stops !! 0%nat with
    | Some s => Ok (_single_stop_route s start_location)
    | None => Raise IndexError
    end
  else if decide (length stops ≤ 8)%nat then
    _brute_force_optimize stops start_location
  else
    _nearest_neighbor_optimize stops start_location.

(** *** The request handler (ml-service/main.py, [optimize_route]) *)

(** [str(n)] for a non-negative [int]. *)
Definition str_of_nat (n : nat) : string :=
  NilEmpty.string_of_uint (Nat.to_uint n).

(** [{"shipment_id": sid, "location": f"Location {i+1}"}] *)
Definition request_stop (i : nat) (sid : string) : stop :=
  <["location" := "Location " +:+ str_of_nat (i + 1)]>
    (<["shipment_id" := sid]> ∅).

(** The list comprehension over [enumerate(request.shipment_ids)]. *)
Definition request_stops (shipment_ids : list string) : list stop :=
  imap request_stop shipment_ids.

(** What the endpoint answers: the response, or [HTTPException] with
    status 500 for whatever the optimiser raised. *)
Inductive http_result : Type :=
| Http200 (body : response)
| Http500 (detail : exn).

(** The body of [optimize_route].  Building [RouteOptimizationResponse]
    from the result keeps its fields; a loop that does not finish gives no
    answer. *)
Definition optimize_route (shipment_ids : list string) (start_location : string)
  : option http_result :=
  match optimize (request_stops shipment_ids) start_location with
  | Ok result => Some (Http200 result)
  | Raise e => Some (Http500 e)
  | Diverge => None
  end.

(** *** The scenario of the specification *)

Definition mk_stop (sid loc : string) : stop :=
  <["shipment_id" := sid]> (<["location" := loc]> ∅).

Definition stop_A : stop := mk_stop "s1" "A".
Definition stop_B : stop := mk_stop "s2" "B".
Definition stop_C : stop := mk_stop "s3" "C".
Definition scenario_stops : list stop := [stop_A; stop_B; stop_C].

(** ** Vocabulary of the properties *)

(** [best] stands at position [i] of the enumeration [ps], no entry of [ps]
    is cheaper, and every earlier entry is strictly more expensive. *)
Definition first_minimum (start : string) (ps : list (list stop)) (i : nat)
    (best : list stop) : Prop :=
  ps !! i = Some best
  ∧ (∀ p, p ∈ ps →
       _calculate_total_distance best start ≤ _calculate_total_distance p start)
  ∧ (∀ j p, (j < i)%nat → ps !! j = Some p →
       _calculate_total_distance best start < _calculate_total_distance p start).

(** [x] is the first element of [l] with the least key: [l] is [l1], then
    [x], then [l2], every key in [l1] is strictly greater than that of [x]
    and no key in [l2] is smaller. *)
Definition first_min_split {A} (key : A → Z) (l l1 : list A) (x : A)
    (l2 : list A) : Prop :=
  l = l1 ++ x :: l2
  ∧ Forall (λ y, key x < key y) l1
  ∧ Forall (λ y, key x ≤ key y) l2.

(** The key by which an iteration of the greedy loop compares the unvisited
    stops. *)
Definition nn_key (st : nn_state) (s : stop) : Z :=
  _estimate_distance (current_location st) (stop_location s).

(** The states at the head of the [while unvisited] loop during a run on
    [stops] from [start]. *)
Inductive nn_reachable (stops : list stop) (start : string) : nn_state → Prop :=
| nn_reachable_init : nn_reachable stops start (nn_init stops start)
| nn_reachable_step st st' :
    nn_reachable stops start st →
    unvisited st ≠ [] →
    nn_body st = Ok st' →
    nn_reachable stops start st'.

(** The identifiers an entry of the response carries. *)
Definition entry_ids (e : formatted_stop) : string * string :=
  (shipment_id e, location e).

(** The identifiers the optimiser reads from a stop. *)
Definition stop_ids (s : stop) : string * string :=
  (stop_shipment_id s, stop_location s).

(** The stop with each missing identifier set to the empty string. *)
Definition with_defaults (s : stop) : stop :=
  let s' :=
    match s !! "location" with
    | Some _ => s
    | None => <["location" := ""]> s
    end in
  match s' !! "shipment_id" with
  | Some _ => s'
  | None => <["shipment_id" := ""]> s'
  end.

(** A state of the greedy loop, a result and a state of the exhaustive
    search with every stop replaced by its image under [f]. *)
Definition nn_state_map (f : stop → stop) (st : nn_state) : nn_state :=
  {| unvisited := f <$> unvisited st;
     route := f <$> route st;
     current_location := current_location st;
     total_distance := total_distance st |}.

Definition outcome_map {A B} (f : A → B) (m : outcome A) : outcome B :=
  bind m (λ a, Ok (f a)).

Definition search_state_map (f : stop → stop) (st : search_state)
  : search_state :=
  match st with
  | (best_route, best_distance) =>
      (fmap (M := list) f <$> (best_route : option (list stop)), best_distance)
  end.

(** The response of the service on the scenario: origin ["Start"], stops
    at ["A"], ["B"], ["C"]. *)
Definition scenario_response : response :=
  {| optimized_sequence :=
       [ {| shipment_id := "s3"; sequence := 1; location := "C";
            estimated_arrival := 59 # 60;
            distance_from_previous := 5900 # 100 |};
         {| shipment_id := "s2"; sequence := 2; location := "B";
            estimated_arrival := 6600 # 3600;
            distance_from_previous := 5100 # 100 |};
         {| shipment_id := "s1"; sequence := 3; location := "A";
            estimated_arrival := 579600 # 216000;
            distance_from_previous := 5100 # 100 |} ];
     total_distance_km := 16100 # 100;
     total_time_hours := 268 # 100;
     fuel_savings_percent := 0 # 10 |}.

(** [sum(l)] over rationals. *)
Definition Qsum (l : list Q) : Q := foldr Qplus 0%Q l.

(** The distances of the successive hops of a walk from [current] through
    the locations [locs]. *)
Fixpoint hop_distances (current : string) (locs : list string) : list Z :=
  match locs with
  | [] => []
  | loc :: rest => _estimate_distance current loc :: hop_distances loc rest
  end.

(** A route in which every stop is, among the stops not yet visited, one
    of the nearest to the place the walk is at. *)
Fixpoint greedy_route (current : string) (r : list stop) : Prop :=
  match r with
  | [] => True
  | s :: rest =>
      Forall (λ t, _estimate_distance current (stop_location s)
                   ≤ _estimate_distance current (stop_location t)) rest
      ∧ greedy_route (stop_location s) rest
  end.

(** The location a walk from [start] along [r] ends at. *)
Definition end_location (start : string) (r : list stop) : string :=
  default start (last (stop_location <$> r)).

(** ** The distance oracle and the cost evaluator *)

Lemma estimate_distance_sym a b : _estimate_distance a b = _estimate_distance b a.
Proof.
  unfold _estimate_distance. repeat case_decide; try congruence.
  cbn zeta.
  replace (sum_ord b - sum_ord a) with (- (sum_ord a - sum_ord b)) by lia.
  now rewrite Z.abs_opp.
Qed.

Lemma estimate_distance_refl a : _estimate_distance a a = 0.
Proof. unfold _estimate_distance. now case_decide. Qed.

Lemma estimate_distance_distinct a b :
  a ≠ b →
  _estimate_distance a b = 50 + Z.abs (sum_ord a - sum_ord b) mod 450.
Proof. intros Hab. unfold _estimate_distance. now case_decide. Qed.

Lemma estimate_distance_range a b :
  _estimate_distance a b = 0 ∨ 50 ≤ _estimate_distance a b ≤ 499.
Proof.
  unfold _estimate_distance. destruct (decide (a = b)); [now left|right].
  cbn zeta.
  pose proof (Z.mod_pos_bound (Z.abs (sum_ord a - sum_ord b)) 450). lia.
Qed.

Lemma estimate_distance_nonneg a b : 0 ≤ _estimate_distance a b.
Proof. destruct (estimate_distance_range a b); lia. Qed.

Lemma total_distance_loop_acc r current total :
  total_distance_loop r current total
  = total + total_distance_loop r current 0.
Proof.
  revert current total. induction r as [|s r IH]; intros current total; cbn.
  - lia.
  - rewrite (IH _ (total + _)), (IH _ (0 + _)). lia.
Qed.

Lemma calculate_total_distance_nil start : _calculate_total_distance [] start = 0.
Proof. reflexivity. Qed.

Lemma calculate_total_distance_cons s r start :
  _calculate_total_distance (s :: r) start
  = _estimate_distance start (stop_location s)
    + _calculate_total_distance r (stop_location s).
Proof.
  unfold _calculate_total_distance. cbn.
  now rewrite total_distance_loop_acc.
Qed.

Lemma calculate_total_distance_nonneg r start :
  0 ≤ _calculate_total_distance r start.
Proof.
  revert start. induction r as [|s r IH]; intros start.
  - now rewrite calculate_total_distance_nil.
  - rewrite calculate_total_distance_cons.
    pose proof (estimate_distance_nonneg start (stop_location s)).
    specialize (IH (stop_location s)). lia.
Qed.

(** ** Enumeration of the permutations *)

Section Permutations.
Context {A : Type}.
Implicit Types (l p r : list A) (x : A).

Lemma selections_split x r l :
  (x, r) ∈ selections l ↔ ∃ l1 l2, l = l1 ++ x :: l2 ∧ r = l1 ++ l2.
Proof.
  revert r. induction l as [|y l IH]; intros r; cbn.
  - split.
    + intros H. inversion H.
    + intros (l1 & l2 & H & _). now destruct l1.
  - rewrite elem_of_cons, list_elem_of_fmap. split.
    + intros [[= -> ->]|([x' r'] & [= -> ->] & Hin)].
      * now exists [], l.
      * apply IH in Hin as (l1 & l2 & -> & ->).
        now exists (y :: l1), l2.
    + intros (l1 & l2 & Hl & ->). destruct l1 as [|z l1]; cbn in Hl.
      * left. cbn. congruence.
      * injection Hl as <- ->. right. exists (x, l1 ++ l2).
        split; [reflexivity|]. apply IH. eauto.
Qed.

Lemma selections_perm x r l : (x, r) ∈ selections l → l ≡ₚ x :: r.
Proof.
  intros (l1 & l2 & -> & ->)%selections_split.
  symmetry. apply Permutation_middle.
Qed.

Lemma permutations_of_size_sound n l p :
  length l = n → p ∈ permutations_of_size n l → p ≡ₚ l.
Proof.
  revert l p. induction n as [|n IH]; intros l p Hlen; cbn.
  - intros ->%list_elem_of_singleton. now destruct l.
  - rewrite list_elem_of_bind. intros ([x r] & Hp & Hsel). cbn in Hp.
    apply list_elem_of_fmap in Hp as (p' & -> & Hp').
    apply selections_perm in Hsel as Hperm.
    rewrite Hperm. constructor. apply IH; [|assumption].
    apply Permutation_length in Hperm. cbn in Hperm. lia.
Qed.

Lemma permutations_of_size_complete n l p :
  length l = n → p ≡ₚ l → p ∈ permutations_of_size n l.
Proof.
  revert l p. induction n as [|n IH]; intros l p Hlen Hperm; cbn.
  - destruct l; [|discriminate]. apply Permutation_nil_r in Hperm as ->.
    now apply list_elem_of_singleton.
  - destruct p as [|x p].
    { apply Permutation_length in Hperm. cbn in Hperm. lia. }
    assert (x ∈ l) as (l1 & l2 & ->)%list_elem_of_split.
    { rewrite <- Hperm. now left. }
    rewrite <- Permutation_middle in Hperm.
    apply Permutation_cons_inv in Hperm.
    apply list_elem_of_bind. exists (x, l1 ++ l2). split.
    + cbn. apply list_elem_of_fmap. exists p. split; [reflexivity|].
      apply IH; [|assumption].
      rewrite length_app in *. cbn in Hlen. lia.
    + apply selections_split. eauto.
Qed.

(** [itertools.permutations] yields exactly the orderings of its input. *)
Lemma itertools_permutations_spec l p :
  p ∈ itertools_permutations l ↔ p ≡ₚ l.
Proof.
  split.
  - now apply permutations_of_size_sound.
  - now apply permutations_of_size_complete.
Qed.

Lemma itertools_permutations_nonempty l : itertools_permutations l ≠ [].
Proof.
  intros H. assert (l ∈ itertools_permutations l) as Hin
    by now apply itertools_permutations_spec.
  rewrite H in Hin. inversion Hin.
Qed.

End Permutations.

(** ** The exact sequencer *)

Lemma brute_force_fold start (ps : list (list stop)) :
  (ps = [] ∧ foldl (brute_force_step start) (None, Inf) ps = (None, Inf))
  ∨ ∃ i best,
      first_minimum start ps i best
      ∧ foldl (brute_force_step start) (None, Inf) ps
        = (Some best, Fin (_calculate_total_distance best start)).
Proof.
  induction ps as [|p ps IH] using rev_ind.
  - now left.
  - right. rewrite foldl_app. cbn [foldl].
    destruct IH as [[-> ->]|(i & best & (Hi & Hmin & Hfirst) & ->)].
    + exists 0%nat, p. split; [|reflexivity].
      split; [reflexivity|]. split.
      * intros q ->%list_elem_of_singleton. lia.
      * intros j q Hj. lia.
    + unfold brute_force_step. cbn [snd below].
      destruct (Z.ltb_spec (_calculate_total_distance p start)
                           (_calculate_total_distance best start)) as [Hlt|Hge].
      * exists (length ps), p. split; [|reflexivity]. split; [|split].
        -- now rewrite lookup_app_r, Nat.sub_diag by lia.
        -- intros q [Hq| ->%list_elem_of_singleton]%elem_of_app; [|lia].
           specialize (Hmin q Hq). lia.
        -- intros j q Hj Hq. rewrite lookup_app_l in Hq by lia.
           apply list_elem_of_lookup_2 in Hq. specialize (Hmin q Hq). lia.
      * exists i, best. split; [|reflexivity].
        apply lookup_lt_Some in Hi as Hlen. split; [|split].
        -- now rewrite lookup_app_l by lia.
        -- intros q [Hq| ->%list_elem_of_singleton]%elem_of_app; [|lia].
           now apply Hmin.
        -- intros j q Hj Hq. rewrite lookup_app_l in Hq by lia.
           now apply (Hfirst j).
Qed.

(** The search always ends with a route: the first cheapest permutation. *)
Lemma brute_force_search_first_minimum stops start :
  ∃ i best,
    first_minimum start (itertools_permutations stops) i best
    ∧ brute_force_search stops start
      = (Some best, Fin (_calculate_total_distance best start)).
Proof.
  destruct (brute_force_fold start (itertools_permutations stops))
    as [[Hnil _]|H]; [|exact H].
  now apply itertools_permutations_nonempty in Hnil.
Qed.

Lemma brute_force_optimize_format stops start :
  ∃ best,
    brute_force_search stops start
    = (Some best, Fin (_calculate_total_distance best start))
    ∧ best ≡ₚ stops
    ∧ _brute_force_optimize stops start
      = _format_route_response best start (_calculate_total_distance best start).
Proof.
  destruct (brute_force_search_first_minimum stops start)
    as (i & best & (Hi & _) & Heq).
  exists best. split; [assumption|]. split.
  - apply itertools_permutations_spec. now apply list_elem_of_lookup_2 in Hi.
  - unfold _brute_force_optimize. now rewrite Heq.
Qed.

(** ** The heuristic sequencer *)

Section MinKey.
Context {A : Type} `{EqDecision A} (key : A → Z).

Lemma min_from_split best l :
  ∃ l1 l2, first_min_split key (best :: l) l1 (min_from key best l) l2.
Proof.
  revert best. induction l as [|x l IH]; intros best; cbn [min_from].
  - exists [], []. repeat split; constructor.
  - destruct (Z.ltb_spec (key x) (key best)) as [Hlt|Hge].
    + destruct (IH x) as (l1 & l2 & Hsplit & Hl1 & Hl2).
      exists (best :: l1), l2. split; [|split].
      * cbn. now rewrite Hsplit.
      * constructor; [|assumption].
        assert (key (min_from key x l) ≤ key x); [|lia].
        destruct l1 as [|y l1]; cbn in Hsplit.
        -- injection Hsplit as <- _. lia.
        -- injection Hsplit as <- _. apply Forall_cons_1 in Hl1 as [? _]. lia.
      * assumption.
    + destruct (IH best) as (l1 & l2 & Hsplit & Hl1 & Hl2).
      set (m := min_from key best l) in *. clearbody m.
      destruct l1 as [|y l1]; cbn in Hsplit.
      * injection Hsplit as <- <-. exists [], (x :: l).
        split; [reflexivity|]. split; [constructor|].
        constructor; [lia|assumption].
      * injection Hsplit as <- ->. exists (best :: x :: l1), l2.
        apply Forall_cons_1 in Hl1 as [Hb Hl1].
        split; [reflexivity|]. split; [|assumption].
        constructor; [assumption|]. constructor; [lia|assumption].
Qed.

Lemma min_key_split l :
  l ≠ [] → ∃ l1 x l2, min_key key l = Ok x ∧ first_min_split key l l1 x l2.
Proof.
  destruct l as [|best l]; [congruence|]. intros _.
  destruct (min_from_split best l) as (l1 & l2 & H).
  exists l1, (min_from key best l), l2. now split.
Qed.

Lemma list_remove_first (l1 : list A) (x : A) (l2 : list A) :
  x ∉ l1 → list_remove x (l1 ++ x :: l2) = Ok (l1 ++ l2).
Proof.
  induction l1 as [|y l1 IH]; intros Hnotin; cbn.
  - now rewrite decide_True.
  - apply not_elem_of_cons in Hnotin as [Hne Hnotin].
    rewrite decide_False by congruence. now rewrite IH.
Qed.

Lemma first_min_split_not_before (l l1 : list A) (x : A) (l2 : list A) :
  first_min_split key l l1 x l2 → x ∉ l1.
Proof.
  intros (_ & Hl1 & _) Hin.
  rewrite Forall_forall in Hl1. specialize (Hl1 x Hin). lia.
Qed.

End MinKey.

(** One iteration removes the first nearest unvisited stop and appends it
    to the route. *)
Lemma nn_body_spec st :
  unvisited st ≠ [] →
  ∃ l1 nearest l2,
    first_min_split (nn_key st) (unvisited st) l1 nearest l2
    ∧ nn_body st
      = Ok {| unvisited := l1 ++ l2;
              route := route st ++ [nearest];
              current_location := stop_location nearest;
              total_distance := total_distance st + nn_key st nearest |}.
Proof.
  intros Hne.
  destruct (min_key_split (nn_key st) (unvisited st) Hne)
    as (l1 & nearest & l2 & Hmin & Hsplit).
  exists l1, nearest, l2. split; [assumption|].
  unfold nn_body. fold (nn_key st). rewrite Hmin. cbn [bind].
  destruct Hsplit as (Heq & Hrest). rewrite Heq at 1.
  rewrite list_remove_first; [reflexivity|].
  eapply first_min_split_not_before. split; eassumption.
Qed.

(** Given as many iterations as there are unvisited stops, the loop ends
    with every stop visited: the route grew by an ordering of the unvisited
    stops and the running total by the cost of that segment. *)
Lemma nn_loop_spec n st :
  (length (unvisited st) ≤ n)%nat →
  ∃ seg st',
    nn_loop n st = Ok st'
    ∧ unvisited st' = []
    ∧ route st' = route st ++ seg
    ∧ seg ≡ₚ unvisited st
    ∧ total_distance st'
      = total_distance_loop seg (current_location st) (total_distance st).
Proof.
  revert st. induction n as [|n IH]; intros st Hlen.
  - destruct st as [[|s u] r c t]; cbn in Hlen; [|lia].
    exists [], (NNState [] r c t). cbn. now rewrite app_nil_r.
  - destruct (unvisited st) as [|s u] eqn:Hu.
    + exists [], st. cbn. rewrite Hu, app_nil_r. now repeat split.
    + destruct (nn_body_spec st) as (l1 & nearest & l2 & Hsplit & Hbody).
      { now rewrite Hu. }
      destruct Hsplit as (Heq & _). rewrite Hu in Heq.
      cbn [nn_loop]. rewrite Hu, Hbody. cbn [bind].
      match goal with |- context [nn_loop n ?s] => destruct (IH s) as
          (seg & st' & Hloop & Hdone & Hroute & Hperm & Htotal) end.
      { cbn. apply (f_equal length) in Heq.
        rewrite length_app in *. cbn in *. lia. }
      cbn in Hroute, Hperm, Htotal.
      exists (nearest :: seg), st'. split; [assumption|].
      split; [assumption|]. split; [|split].
      * now rewrite Hroute, <- app_assoc.
      * rewrite Heq, Hperm. apply Permutation_middle.
      * rewrite Htotal. reflexivity.
Qed.

Lemma nearest_neighbor_search_spec stops start :
  ∃ st,
    nearest_neighbor_search stops start = Ok st
    ∧ unvisited st = []
    ∧ route st ≡ₚ stops
    ∧ total_distance st = _calculate_total_distance (route st) start.
Proof.
  destruct (nn_loop_spec (length stops) (nn_init stops start))
    as (seg & st & Hloop & Hdone & Hroute & Hperm & Htotal);
    [reflexivity|].
  cbn in Hroute, Hperm, Htotal. exists st. subst seg. now repeat split.
Qed.

Lemma nearest_neighbor_optimize_format stops start :
  ∃ r,
    r ≡ₚ stops
    ∧ _nearest_neighbor_optimize stops start
      = _format_route_response r start (_calculate_total_distance r start).
Proof.
  destruct (nearest_neighbor_search_spec stops start)
    as (st & Hsearch & _ & Hperm & Htotal).
  exists (route st). split; [assumption|].
  unfold _nearest_neighbor_optimize. rewrite Hsearch. cbn [bind].
  now rewrite Htotal.
Qed.

(** ** Rounding and the derived metrics *)

Lemma round_half_even_Qeq (x y : Q) :
  (x == y)%Q → round_half_even x = round_half_even y.
Proof.
  intros Hxy. unfold round_half_even.
  rewrite (Qfloor_comp _ _ Hxy).
  now rewrite (Qcompare_comp _ _ (Qminus_comp _ _ Hxy _ _ (Qeq_refl _))
                 _ _ (Qeq_refl (1 # 2))).
Qed.

Lemma round_Qeq (x y : Q) n : (x == y)%Q → round x n = round y n.
Proof.
  intros Hxy. unfold round.
  now rewrite (round_half_even_Qeq (x * _) (y * _))
    by now rewrite Hxy.
Qed.

Lemma round_half_even_inject_Z (z : Z) : round_half_even (inject_Z z) = z.
Proof.
  unfold round_half_even. rewrite Qfloor_Z.
  replace (Qcompare (inject_Z z - inject_Z z) (1 # 2)) with Lt; [reflexivity|].
  symmetry. apply Qlt_alt.
  generalize (inject_Z z). intros q.
  assert (q - q == 0)%Q as -> by ring. reflexivity.
Qed.

(** [round] leaves an [int] as it is. *)
Lemma round_inject_Z (z : Z) n : (round (inject_Z z) n == inject_Z z)%Q.
Proof.
  unfold round.
  assert (0 < 10 ^ Z.of_nat n) as Hpos by (apply Z.pow_pos_nonneg; lia).
  rewrite (round_half_even_Qeq _ (inject_Z (z * 10 ^ Z.of_nat n)))
    by now rewrite inject_Z_mult.
  rewrite round_half_even_inject_Z, inject_Z_mult.
  apply Qdiv_mult_l. intros H.
  unfold Qeq in H. cbn in H. lia.
Qed.

Lemma round_half_even_error (x : Q) :
  (Qabs (inject_Z (round_half_even x) - x) <= 1 # 2)%Q.
Proof.
  pose proof (Qfloor_le x) as Hlo. pose proof (Qlt_floor x) as Hhi.
  rewrite inject_Z_plus in Hhi. change (inject_Z 1) with 1%Q in Hhi.
  apply Qabs_Qle_condition. unfold round_half_even.
  destruct (Qcompare (x - inject_Z (Qfloor x)) (1 # 2)) eqn:Hcmp.
  - apply Qeq_alt in Hcmp.
    destruct (Z.even (Qfloor x)); rewrite ?inject_Z_plus;
      change (inject_Z 1) with 1%Q; lra.
  - apply Qlt_alt in Hcmp. lra.
  - apply Qgt_alt in Hcmp. rewrite inject_Z_plus.
    change (inject_Z 1) with 1%Q. lra.
Qed.

(** Rounding to two decimals moves a value by at most half a hundredth. *)
Lemma round2_error (x : Q) : (Qabs (round x 2 - x) <= 1 # 200)%Q.
Proof.
  unfold round. change (inject_Z (10 ^ Z.of_nat 2)) with 100%Q.
  pose proof (round_half_even_error (x * 100)) as H.
  apply Qabs_Qle_condition in H. apply Qabs_Qle_condition.
  set (r := inject_Z (round_half_even (x * 100))) in *. clearbody r.
  assert (r / 100 == r * (1 # 100))%Q as Hd by (unfold Qdiv; reflexivity).
  rewrite Hd. destruct H as [H1 H2]. split; lra.
Qed.

Lemma max_zero_of_zero (b : Q) : (b == 0)%Q → Py.max 0%Q b = 0%Q.
Proof. intros Hb. unfold Py.max. apply Qeq_alt in Hb. now rewrite Hb. Qed.

(** When the total handed to the formatter is the cost of the route, the
    savings it derives are zero. *)
Lemma format_route_response_savings r start resp :
  _format_route_response r start (_calculate_total_distance r start) = Ok resp →
  fuel_savings_percent resp = round 0%Q 1.
Proof.
  unfold _format_route_response. cbn zeta. case_decide; [discriminate|].
  intros [= <-]. cbn [fuel_savings_percent]. rewrite Z.sub_diag.
  rewrite max_zero_of_zero; [reflexivity|].
  unfold Qdiv. now rewrite !Qmult_0_l.
Qed.

(** ** The formatter and the entry point *)

Lemma format_stops_ids r idx current time :
  entry_ids <$> format_stops r idx current time = stop_ids <$> r.
Proof.
  revert idx current time. induction r as [|s r IH]; intros; cbn.
  - reflexivity.
  - now rewrite IH.
Qed.

Lemma format_stops_sequence r idx current time :
  sequence <$> format_stops r idx current time
  = (λ k, idx + 1 + Z.of_nat k) <$> seq 0 (length r).
Proof.
  revert idx current time. induction r as [|s r IH]; intros; cbn.
  - reflexivity.
  - rewrite IH, <- fmap_S_seq, <- list_fmap_compose. f_equal; [lia|].
    apply list_fmap_ext. intros ? k ?. cbn. lia.
Qed.

(** What a successful call of the formatter returns. *)
Lemma format_route_response_Ok r start d resp :
  _format_route_response r start d = Ok resp →
  _calculate_total_distance r start ≠ 0
  ∧ entry_ids <$> optimized_sequence resp = stop_ids <$> r
  ∧ (total_distance_km resp == inject_Z d)%Q
  ∧ total_time_hours resp = round (inject_Z d / inject_Z avg_speed_kmh) 2.
Proof.
  unfold _format_route_response. cbn zeta. case_decide; [discriminate|].
  intros [= <-]. cbn. split; [assumption|]. split; [|split].
  - apply format_stops_ids.
  - apply round_inject_Z.
  - reflexivity.
Qed.

Lemma format_route_response_raises r start d :
  _calculate_total_distance r start = 0 →
  _format_route_response r start d = Raise ZeroDivisionError.
Proof. intros H. unfold _format_route_response. cbn zeta. now case_decide. Qed.

(** The four branches of [optimize]. *)
Lemma optimize_cases stops start :
  (stops = [] ∧ optimize stops start = Ok _empty_route)
  ∨ (∃ s, stops = [s] ∧ optimize stops start = Ok (_single_stop_route s start))
  ∨ ((2 ≤ length stops ≤ 8)%nat
     ∧ optimize stops start = _brute_force_optimize stops start)
  ∨ ((8 < length stops)%nat
     ∧ optimize stops start = _nearest_neighbor_optimize stops start).
Proof.
  unfold optimize. destruct stops as [|s [|s' stops]].
  - now left.
  - right; left. now exists s.
  - cbn [length]. repeat case_decide; try lia.
    + right; right; left. split; [lia|reflexivity].
    + right; right; right. split; [lia|reflexivity].
Qed.

(** With two stops or more, [optimize] formats an ordering of the stops
    together with that ordering's own cost. *)
Lemma optimize_format stops start :
  (2 ≤ length stops)%nat →
  ∃ r,
    r ≡ₚ stops
    ∧ optimize stops start
      = _format_route_response r start (_calculate_total_distance r start).
Proof.
  intros Hlen.
  destruct (optimize_cases stops start)
    as [[-> _]|[(s & -> & _)|[[_ ->]|[_ ->]]]]; cbn in Hlen; try lia.
  - destruct (brute_force_optimize_format stops start) as (r & _ & Hperm & Heq).
    now exists r.
  - apply nearest_neighbor_optimize_format.
Qed.

(** The cost of a route is zero exactly when every stop is at the origin. *)
Lemma calculate_total_distance_zero r start :
  _calculate_total_distance r start = 0
  ↔ Forall (λ s, stop_location s = start) r.
Proof.
  revert start. induction r as [|s r IH]; intros start.
  - split; [constructor|reflexivity].
  - rewrite calculate_total_distance_cons, Forall_cons.
    pose proof (calculate_total_distance_nonneg r (stop_location s)) as Hr.
    pose proof (estimate_distance_range start (stop_location s)) as Hd.
    split.
    + intros Hsum. assert (_estimate_distance start (stop_location s) = 0)
        as Hzero by lia.
      assert (stop_location s = start) as Heq.
      { unfold _estimate_distance in Hzero. case_decide; [congruence|].
        cbn zeta in Hzero.
        pose proof (Z.mod_pos_bound
          (Z.abs (sum_ord start - sum_ord (stop_location s))) 450). lia. }
      split; [assumption|]. rewrite <- Heq. apply IH. lia.
    + intros [Heq Hall]. rewrite Heq in *.
      rewrite estimate_distance_refl. apply IH in Hall. lia.
Qed.

(** The outcome of [optimize] on every input: a response, unless there are
    at least two stops and all of them are at the origin. *)
Lemma optimize_outcome stops start :
  if decide ((2 ≤ length stops)%nat
             ∧ Forall (λ s, stop_location s = start) stops)
  then optimize stops start = Raise ZeroDivisionError
  else ∃ resp, optimize stops start = Ok resp.
Proof.
  case_decide as Hcase.
  - destruct Hcase as [Hlen Hall].
    destruct (optimize_format stops start Hlen) as (r & Hperm & ->).
    apply format_route_response_raises, calculate_total_distance_zero.
    now rewrite Hperm.
  - destruct (optimize_cases stops start)
      as [[-> ->]|[(s & -> & ->)|[[Hlen Heq]|[Hlen Heq]]]]; [eauto|eauto| |].
    all: destruct (optimize_format stops start) as (r & Hperm & Hfmt);
      [lia|].
    all: rewrite Hfmt; unfold _format_route_response; cbn zeta.
    all: case_decide as Hzero; [|eauto].
    all: apply calculate_total_distance_zero in Hzero;
      rewrite Hperm in Hzero.
    all: exfalso; apply Hcase; split; [lia|assumption].
Qed.

(** ** Properties of the specification *)

(** C5. The distance oracle is symmetric and returns 0 on equal arguments;
    on distinct strings it is [50 + (|h(a) - h(b)| mod 450)], with [h] the
    sum of the character codes, a value between 50 and 499. *)
Theorem distance_oracle_spec (a b : string) :
  _estimate_distance a b = _estimate_distance b a
  ∧ _estimate_distance a a = 0
  ∧ (a ≠ b →
     _estimate_distance a b = 50 + Z.abs (sum_ord a - sum_ord b) mod 450
     ∧ 50 ≤ _estimate_distance a b ≤ 499).
Proof.
  split; [apply estimate_distance_sym|].
  split; [apply estimate_distance_refl|].
  intros Hab. rewrite (estimate_distance_distinct a b Hab).
  split; [reflexivity|].
  pose proof (Z.mod_pos_bound (Z.abs (sum_ord a - sum_ord b)) 450). lia.
Qed.

Lemma distance_oracle_spec_witness :
  _estimate_distance "Start" "A" = 50 + Z.abs (sum_ord "Start" - sum_ord "A") mod 450
  ∧ 50 ≤ _estimate_distance "Start" "A" ≤ 499.
Proof.
  apply (distance_oracle_spec "Start" "A"). discriminate.
Defined.

(** C1. With 2 to 8 stops, [optimize] formats the route found by the
    exhaustive search; that route is an ordering of the stops whose cost
    from the origin is at most the cost of every ordering of the same
    stops, and it is the first entry of the enumeration with that cost:
    every earlier permutation is strictly more expensive. *)
Theorem exact_sequencer_optimal (stops : list stop) (start : string) :
  (2 ≤ length stops ≤ 8)%nat →
  ∃ i best,
    brute_force_search stops start
    = (Some best, Fin (_calculate_total_distance best start))
    ∧ optimize stops start
      = _format_route_response best start (_calculate_total_distance best start)
    ∧ best ≡ₚ stops
    ∧ (∀ p, p ≡ₚ stops →
         _calculate_total_distance best start
         ≤ _calculate_total_distance p start)
    ∧ itertools_permutations stops !! i = Some best
    ∧ (∀ j p, (j < i)%nat → itertools_permutations stops !! j = Some p →
         _calculate_total_distance best start
         < _calculate_total_distance p start).
Proof.
  intros Hlen.
  destruct (brute_force_search_first_minimum stops start)
    as (i & best & (Hi & Hmin & Hfirst) & Hsearch).
  exists i, best. split; [assumption|]. split; [|split; [|split; [|split]]].
  - destruct (optimize_cases stops start)
      as [[-> _]|[(s & -> & _)|[[_ ->]|[? _]]]]; cbn in Hlen; try lia.
    unfold _brute_force_optimize. now rewrite Hsearch.
  - apply itertools_permutations_spec. now apply list_elem_of_lookup_2 in Hi.
  - intros p Hp. now apply Hmin, itertools_permutations_spec.
  - assumption.
  - assumption.
Qed.

Lemma exact_sequencer_optimal_witness :
  ∃ i best,
    brute_force_search scenario_stops "Start"
    = (Some best, Fin (_calculate_total_distance best "Start"))
    ∧ optimize scenario_stops "Start"
      = _format_route_response best "Start"
          (_calculate_total_distance best "Start")
    ∧ best ≡ₚ scenario_stops
    ∧ (∀ p, p ≡ₚ scenario_stops →
         _calculate_total_distance best "Start"
         ≤ _calculate_total_distance p "Start")
    ∧ itertools_permutations scenario_stops !! i = Some best
    ∧ (∀ j p, (j < i)%nat →
         itertools_permutations scenario_stops !! j = Some p →
         _calculate_total_distance best "Start"
         < _calculate_total_distance p "Start").
Proof.
  apply (exact_sequencer_optimal scenario_stops "Start"). cbn. lia.
Defined.

(** C2. Both sequencers return an ordering of the input stops, whatever
    the origin and the number of stops: the exhaustive search and the
    greedy loop each end with a route that is a permutation of the input,
    and every response of [optimize] lists the identifiers of such a
    route, so it has as many entries as there are stops and the same
    multiset of shipment identifiers. *)
Theorem sequencers_return_permutation (stops : list stop) (start : string) :
  (∃ best d,
     brute_force_search stops start = (Some best, Fin d) ∧ best ≡ₚ stops)
  ∧ (∃ st,
       nearest_neighbor_search stops start = Ok st
       ∧ unvisited st = [] ∧ route st ≡ₚ stops)
  ∧ (∀ resp, optimize stops start = Ok resp →
       (∃ r, r ≡ₚ stops ∧ entry_ids <$> optimized_sequence resp = stop_ids <$> r)
       ∧ length (optimized_sequence resp) = length stops
       ∧ shipment_id <$> optimized_sequence resp ≡ₚ stop_shipment_id <$> stops).
Proof.
  split; [|split].
  - destruct (brute_force_optimize_format stops start) as (best & H & Hperm & _).
    eauto.
  - destruct (nearest_neighbor_search_spec stops start)
      as (st & H & Hdone & Hperm & _). eauto.
  - intros resp Hresp.
    assert (∃ r, r ≡ₚ stops
                 ∧ entry_ids <$> optimized_sequence resp = stop_ids <$> r)
      as (r & Hperm & Hids).
    { destruct (optimize_cases stops start)
        as [[-> Heq]|[(s & -> & Heq)|[[Hlen _]|[Hlen _]]]].
      - rewrite Heq in Hresp. injection Hresp as <-. now exists [].
      - rewrite Heq in Hresp. injection Hresp as <-. now exists [s].
      - destruct (optimize_format stops start) as (r & Hperm & Heq); [lia|].
        rewrite Heq in Hresp.
        apply format_route_response_Ok in Hresp as (_ & Hids & _). eauto.
      - destruct (optimize_format stops start) as (r & Hperm & Heq); [lia|].
        rewrite Heq in Hresp.
        apply format_route_response_Ok in Hresp as (_ & Hids & _). eauto. }
    split; [eauto|]. split.
    + apply (f_equal length) in Hids. rewrite !length_fmap in Hids.
      rewrite Hids. now apply Permutation_length.
    + apply (f_equal (fmap fst)) in Hids.
      rewrite <- !list_fmap_compose in Hids.
      change (fst ∘ entry_ids) with shipment_id in Hids.
      change (fst ∘ stop_ids) with stop_shipment_id in Hids.
      rewrite Hids. now apply fmap_Permutation.
Qed.

Lemma scenario_optimize : optimize scenario_stops "Start" = Ok scenario_response.
Proof. vm_compute. reflexivity. Qed.

Lemma sequencers_return_permutation_witness :
  (∃ r, r ≡ₚ scenario_stops
        ∧ entry_ids <$> optimized_sequence scenario_response = stop_ids <$> r)
  ∧ length (optimized_sequence scenario_response) = length scenario_stops
  ∧ shipment_id <$> optimized_sequence scenario_response
    ≡ₚ stop_shipment_id <$> scenario_stops.
Proof.
  apply (sequencers_return_permutation scenario_stops "Start").
  vm_compute. reflexivity.
Defined.

(** C3. [optimize] is not total on well-formed inputs: with two stops that
    are both at the origin the formatter divides by a total distance of 0
    and raises [ZeroDivisionError].  This happens exactly when there are at
    least two stops and every stop is at the origin; on every other input
    [optimize] returns a response. *)
Theorem optimize_raises_on_stops_at_origin :
  optimize [mk_stop "s1" "A"; mk_stop "s2" "A"] "A" = Raise ZeroDivisionError
  ∧ (∀ stops start,
       (2 ≤ length stops)%nat ∧ Forall (λ s, stop_location s = start) stops →
       optimize stops start = Raise ZeroDivisionError)
  ∧ (∀ stops start,
       ¬ ((2 ≤ length stops)%nat ∧ Forall (λ s, stop_location s = start) stops) →
       ∃ resp, optimize stops start = Ok resp).
Proof.
  split; [vm_compute; reflexivity|]. split.
  - intros stops start H. pose proof (optimize_outcome stops start) as Hout.
    now rewrite decide_True in Hout.
  - intros stops start H. pose proof (optimize_outcome stops start) as Hout.
    now rewrite decide_False in Hout.
Qed.

(** C4. The formatter derives the savings from the cost of the route it is
    given, re-evaluated, against the total it is given, clipped below at 0;
    both sequencers hand it the route's own cost, so every response of
    [optimize] reports savings equal to 0. *)
Theorem fuel_savings_always_zero (stops : list stop) (start : string)
    (resp : response) :
  optimize stops start = Ok resp →
  (fuel_savings_percent resp == 0)%Q
  ∧ (∀ r d resp',
       _format_route_response r start d = Ok resp' →
       fuel_savings_percent resp'
       = round (Py.max 0%Q
                  ((inject_Z (_calculate_total_distance r start - d)
                    / inject_Z (_calculate_total_distance r start)) * 100)%Q) 1)
  ∧ ((2 ≤ length stops)%nat →
     ∃ r, r ≡ₚ stops
          ∧ optimize stops start
            = _format_route_response r start (_calculate_total_distance r start)).
Proof.
  intros Hresp. split; [|split].
  - destruct (optimize_cases stops start)
      as [[-> Heq]|[(s & -> & Heq)|[[Hlen _]|[Hlen _]]]].
    + rewrite Heq in Hresp. injection Hresp as <-. reflexivity.
    + rewrite Heq in Hresp. injection Hresp as <-. reflexivity.
    + destruct (optimize_format stops start) as (r & _ & Heq); [lia|].
      rewrite Heq in Hresp.
      now rewrite (format_route_response_savings _ _ _ Hresp).
    + destruct (optimize_format stops start) as (r & _ & Heq); [lia|].
      rewrite Heq in Hresp.
      now rewrite (format_route_response_savings _ _ _ Hresp).
  - intros r d resp'. unfold _format_route_response. cbn zeta.
    case_decide; [discriminate|]. now intros [= <-].
  - apply optimize_format.
Qed.

Lemma fuel_savings_always_zero_witness :
  (fuel_savings_percent scenario_response == 0)%Q.
Proof.
  apply (fuel_savings_always_zero scenario_stops "Start" scenario_response).
  vm_compute. reflexivity.
Defined.

(** C7. With no stop, [optimize] returns the empty response, all
    aggregates 0, where the sequencers themselves would fail; with one stop
    it returns a single entry for that stop, a total distance equal to the
    distance from the origin to the stop's location, and savings 0. *)
Theorem empty_and_single_stop (s : stop) (start : string) :
  optimize [] start = Ok _empty_route
  ∧ optimized_sequence _empty_route = []
  ∧ total_distance_km _empty_route = 0%Q
  ∧ total_time_hours _empty_route = 0%Q
  ∧ fuel_savings_percent _empty_route = 0%Q
  ∧ _brute_force_optimize [] start = Raise ZeroDivisionError
  ∧ _nearest_neighbor_optimize [] start = Raise ZeroDivisionError
  ∧ ∃ resp entry,
      optimize [s] start = Ok resp
      ∧ optimized_sequence resp = [entry]
      ∧ shipment_id entry = stop_shipment_id s
      ∧ location entry = stop_location s
      ∧ sequence entry = 1
      ∧ (distance_from_previous entry
         == inject_Z (_estimate_distance start (stop_location s)))%Q
      ∧ (total_distance_km resp
         == inject_Z (_estimate_distance start (stop_location s)))%Q
      ∧ fuel_savings_percent resp = 0%Q.
Proof.
  repeat (split; [reflexivity|]).
  eexists _, _. split; [reflexivity|]. cbn.
  repeat (split; [reflexivity|]).
  split; [apply round_inject_Z|]. split; [apply round_inject_Z|reflexivity].
Qed.

(** The total time of a response is the total distance divided by the
    average speed and then rounded to two decimals. *)
Lemma rounded_time_of_distance (dkm time : Q) (d : Z) :
  (dkm == inject_Z d)%Q →
  (time == round (inject_Z d / inject_Z avg_speed_kmh) 2)%Q →
  (time == round (dkm / inject_Z avg_speed_kmh) 2)%Q
  ∧ (Qabs (time - dkm / inject_Z avg_speed_kmh) <= 1 # 200)%Q.
Proof.
  intros Hd Ht.
  assert (dkm / inject_Z avg_speed_kmh == inject_Z d / inject_Z avg_speed_kmh)%Q
    as Hq by now rewrite Hd.
  rewrite (round_Qeq _ _ 2 Hq). split; [assumption|].
  rewrite Ht, Hq. apply round2_error.
Qed.

(** C9, as the code has it. The reported total time is the reported total
    distance divided by the average speed of 60 and then rounded to two
    decimals, so it differs from the quotient by at most 0.005. *)
Theorem total_time_is_rounded_quotient (stops : list stop) (start : string)
    (resp : response) :
  optimize stops start = Ok resp →
  (total_time_hours resp
   == round (total_distance_km resp / inject_Z avg_speed_kmh) 2)%Q
  ∧ (Qabs (total_time_hours resp - total_distance_km resp / inject_Z avg_speed_kmh)
     <= 1 # 200)%Q.
Proof.
  intros Hresp.
  destruct (optimize_cases stops start)
    as [[-> Heq]|[(s & -> & Heq)|[[Hlen _]|[Hlen _]]]].
  - rewrite Heq in Hresp. injection Hresp as <-.
    apply (rounded_time_of_distance _ _ 0); reflexivity.
  - rewrite Heq in Hresp. injection Hresp as <-.
    apply (rounded_time_of_distance _ _
             (_estimate_distance start (stop_location s))).
    + apply round_inject_Z.
    + reflexivity.
  - destruct (optimize_format stops start) as (r & _ & Heq); [lia|].
    rewrite Heq in Hresp.
    apply format_route_response_Ok in Hresp as (_ & _ & Hd & Ht).
    apply (rounded_time_of_distance _ _ _ Hd). now rewrite Ht.
  - destruct (optimize_format stops start) as (r & _ & Heq); [lia|].
    rewrite Heq in Hresp.
    apply format_route_response_Ok in Hresp as (_ & _ & Hd & Ht).
    apply (rounded_time_of_distance _ _ _ Hd). now rewrite Ht.
Qed.

Lemma total_time_is_rounded_quotient_witness :
  (total_time_hours scenario_response
   == round (total_distance_km scenario_response / inject_Z avg_speed_kmh) 2)%Q
  ∧ (Qabs (total_time_hours scenario_response
           - total_distance_km scenario_response / inject_Z avg_speed_kmh)
     <= 1 # 200)%Q.
Proof.
  apply (total_time_is_rounded_quotient scenario_stops "Start").
  vm_compute. reflexivity.
Defined.

(** C9, as stated, fails on the scenario: the response reports 161 km and
    2.68 h, and 2.68 is not 161/60. *)
Lemma total_time_not_exact_quotient :
  optimize scenario_stops "Start" = Ok scenario_response
  ∧ (total_distance_km scenario_response == 161)%Q
  ∧ (total_time_hours scenario_response == 268 # 100)%Q
  ∧ ¬ (total_time_hours scenario_response
       == total_distance_km scenario_response / inject_Z avg_speed_kmh)%Q.
Proof.
  split; [apply scenario_optimize|].
  split; [reflexivity|]. split; [reflexivity|].
  vm_compute. discriminate.
Qed.

(** C6, as the code has it. On the scenario the pairwise distances are 61,
    60, 59, 51, 52 and 51; the six permutations cost 163, 164, 163, 163,
    162 and 161 in enumeration order, so the last one, C, B, A, is the only
    one of cost 161 and the search returns it; the response lists C, B, A,
    reports a total distance of 161 and a total time of 2.68 hours, which
    is 161/60 rounded to two decimals. *)
Theorem scenario_exact_route :
  _estimate_distance "Start" "A" = 61
  ∧ _estimate_distance "Start" "B" = 60
  ∧ _estimate_distance "Start" "C" = 59
  ∧ _estimate_distance "A" "B" = 51
  ∧ _estimate_distance "A" "C" = 52
  ∧ _estimate_distance "B" "C" = 51
  ∧ (λ p, (stop_location <$> p, _calculate_total_distance p "Start"))
      <$> itertools_permutations scenario_stops
    = [ (["A"; "B"; "C"], 163); (["A"; "C"; "B"], 164);
        (["B"; "A"; "C"], 163); (["B"; "C"; "A"], 163);
        (["C"; "A"; "B"], 162); (["C"; "B"; "A"], 161) ]
  ∧ brute_force_search scenario_stops "Start"
    = (Some [stop_C; stop_B; stop_A], Fin 161)
  ∧ optimize scenario_stops "Start" = Ok scenario_response
  ∧ entry_ids <$> optimized_sequence scenario_response
    = [("s3", "C"); ("s2", "B"); ("s1", "A")]
  ∧ (total_distance_km scenario_response == 161)%Q
  ∧ (inject_Z 161 / inject_Z avg_speed_kmh == 161 # 60)%Q
  ∧ total_time_hours scenario_response = round (161 # 60) 2
  ∧ (total_time_hours scenario_response == 268 # 100)%Q
  ∧ (fuel_savings_percent scenario_response == 0)%Q.
Proof.
  repeat (split; [vm_compute; reflexivity|]). vm_compute; reflexivity.
Qed.

(** C6, as stated, fails in its last part: the total time of the returned
    response is 2.68 hours, not 161/60. *)
Lemma scenario_total_time_not_exact :
  optimize scenario_stops "Start" = Ok scenario_response
  ∧ (total_time_hours scenario_response == 268 # 100)%Q
  ∧ ¬ (total_time_hours scenario_response == 161 # 60)%Q.
Proof.
  split; [apply scenario_optimize|]. split; [reflexivity|].
  vm_compute. discriminate.
Qed.

(** ** The greedy choice *)

(** The unvisited stops are always the input with some stops taken out,
    in the order of the input. *)
Lemma nn_reachable_sublist stops start st :
  nn_reachable stops start st → unvisited st `sublist_of` stops.
Proof.
  induction 1 as [|st st' Hreach IH Hne Hbody].
  - reflexivity.
  - destruct (nn_body_spec st Hne) as (l1 & nearest & l2 & (Heq & _) & Hbody').
    rewrite Hbody' in Hbody. injection Hbody as <-. cbn.
    etransitivity; [|exact IH]. rewrite Heq.
    apply sublist_app; [reflexivity|]. now apply sublist_cons.
Qed.

(** The loop only passes through such states. *)
Lemma nn_loop_reachable stops start n st st' :
  nn_reachable stops start st →
  nn_loop n st = Ok st' →
  nn_reachable stops start st'.
Proof.
  revert st. induction n as [|n IH]; intros st Hreach; cbn [nn_loop].
  - destruct (unvisited st); [|discriminate]. now intros [= <-].
  - destruct (unvisited st) as [|s u] eqn:Hu; [now intros [= <-]|].
    destruct (nn_body st) as [st1| |] eqn:Hbody; cbn [bind]; try discriminate.
    apply IH. apply (nn_reachable_step _ _ st); [assumption| |assumption].
    now rewrite Hu.
Qed.

Lemma nearest_neighbor_search_reachable stops start st :
  nearest_neighbor_search stops start = Ok st → nn_reachable stops start st.
Proof. apply nn_loop_reachable. constructor. Qed.

(** C8. At every iteration of the greedy loop the unvisited stops are the
    input stops not yet chosen, in input order; the iteration takes the
    stop at the first position [i] whose distance from the current
    location is least (no unvisited stop is nearer, every earlier one is
    strictly farther), removes exactly that position, appends the stop to
    the route and moves to its location. *)
Theorem greedy_step_takes_first_nearest (stops : list stop) (start : string)
    (st : nn_state) :
  nn_reachable stops start st →
  unvisited st ≠ [] →
  unvisited st `sublist_of` stops
  ∧ ∃ i nearest,
      unvisited st !! i = Some nearest
      ∧ (∀ s, s ∈ unvisited st → nn_key st nearest ≤ nn_key st s)
      ∧ (∀ j s, (j < i)%nat → unvisited st !! j = Some s →
           nn_key st nearest < nn_key st s)
      ∧ nn_body st
        = Ok {| unvisited := delete i (unvisited st);
                route := route st ++ [nearest];
                current_location := stop_location nearest;
                total_distance := total_distance st + nn_key st nearest |}.
Proof.
  intros Hreach Hne. split; [now apply (nn_reachable_sublist stops start)|].
  destruct (nn_body_spec st Hne)
    as (l1 & nearest & l2 & (Heq & Hl1 & Hl2) & Hbody).
  exists (length l1), nearest. rewrite Hbody, Heq.
  split; [apply list_lookup_middle; reflexivity|]. split; [|split].
  - rewrite Forall_forall in Hl1, Hl2.
    intros s [Hs|[->|Hs]%elem_of_cons]%elem_of_app.
    + specialize (Hl1 s Hs). cbn in Hl1. lia.
    + lia.
    + now apply Hl2.
  - intros j s Hj Hs. rewrite lookup_app_l in Hs by assumption.
    rewrite Forall_forall in Hl1. apply Hl1.
    now apply list_elem_of_lookup_2 in Hs.
  - now rewrite delete_middle.
Qed.

Lemma greedy_step_takes_first_nearest_witness :
  unvisited (nn_init scenario_stops "Start") `sublist_of` scenario_stops
  ∧ ∃ i nearest,
      unvisited (nn_init scenario_stops "Start") !! i = Some nearest
      ∧ (∀ s, s ∈ unvisited (nn_init scenario_stops "Start") →
           nn_key (nn_init scenario_stops "Start") nearest
           ≤ nn_key (nn_init scenario_stops "Start") s)
      ∧ (∀ j s, (j < i)%nat →
           unvisited (nn_init scenario_stops "Start") !! j = Some s →
           nn_key (nn_init scenario_stops "Start") nearest
           < nn_key (nn_init scenario_stops "Start") s)
      ∧ nn_body (nn_init scenario_stops "Start")
        = Ok {| unvisited := delete i (unvisited (nn_init scenario_stops "Start"));
                route := route (nn_init scenario_stops "Start") ++ [nearest];
                current_location := stop_location nearest;
                total_distance :=
                  total_distance (nn_init scenario_stops "Start")
                  + nn_key (nn_init scenario_stops "Start") nearest |}.
Proof.
  apply (greedy_step_takes_first_nearest scenario_stops "Start").
  - constructor.
  - discriminate.
Defined.

(** ** Missing fields *)

Lemma stop_location_missing (s : stop) :
  s !! "location" = None → stop_location s = "".
Proof. intros H. unfold stop_location, dict_get. now rewrite H. Qed.

Lemma stop_shipment_id_missing (s : stop) :
  s !! "shipment_id" = None → stop_shipment_id s = "".
Proof. intros H. unfold stop_shipment_id, dict_get. now rewrite H. Qed.

Lemma with_defaults_location (s : stop) :
  stop_location (with_defaults s) = stop_location s.
Proof.
  unfold stop_location, dict_get, with_defaults. cbn zeta.
  destruct (s !! "location") eqn:Hloc;
    destruct (s !! "shipment_id") eqn:Hid;
    rewrite ?lookup_insert_ne, ?Hid by discriminate;
    rewrite ?lookup_insert_ne, ?lookup_insert_eq, ?Hloc by discriminate;
    reflexivity.
Qed.

Lemma with_defaults_shipment_id (s : stop) :
  stop_shipment_id (with_defaults s) = stop_shipment_id s.
Proof.
  unfold stop_shipment_id, dict_get, with_defaults. cbn zeta.
  destruct (s !! "location") eqn:Hloc;
    destruct (s !! "shipment_id") eqn:Hid;
    rewrite ?lookup_insert_ne, ?Hid by discriminate;
    rewrite ?lookup_insert_eq, ?lookup_insert_ne, ?Hid by discriminate;
    reflexivity.
Qed.

Lemma with_defaults_present (s : stop) :
  is_Some (with_defaults s !! "location")
  ∧ is_Some (with_defaults s !! "shipment_id").
Proof.
  unfold with_defaults. cbn zeta.
  destruct (s !! "location") eqn:Hloc;
    destruct (s !! "shipment_id") eqn:Hid;
    rewrite ?lookup_insert_ne, ?Hid by discriminate;
    rewrite ?lookup_insert_eq, ?lookup_insert_ne, ?lookup_insert_eq, ?Hloc, ?Hid
      by discriminate;
    split; eauto.
Qed.

Section Relabel.
Context {A B : Type} (g : A → B).

Lemma selections_fmap (l : list A) :
  selections (g <$> l) = prod_map g (fmap (M := list) g) <$> selections l.
Proof.
  induction l as [|x l IH]; [reflexivity|].
  cbn [selections fmap list_fmap]. fold (fmap g l). rewrite IH.
  cbn. f_equal. rewrite <- !list_fmap_compose.
  apply list_fmap_ext. now intros ? [y r] ?.
Qed.

Lemma permutations_of_size_fmap n (l : list A) :
  permutations_of_size n (g <$> l)
  = fmap (M := list) g <$> permutations_of_size n l.
Proof.
  revert l. induction n as [|n IH]; intros l; [reflexivity|].
  cbn [permutations_of_size]. rewrite selections_fmap.
  induction (selections l) as [|[x r] sel IHsel]; [reflexivity|].
  rewrite fmap_cons, !bind_cons, fmap_app. f_equal; [|exact IHsel].
  cbn [prod_map fst snd]. rewrite IH, <- !list_fmap_compose.
  apply list_fmap_ext. now intros.
Qed.

Lemma itertools_permutations_fmap (l : list A) :
  itertools_permutations (g <$> l)
  = fmap (M := list) g <$> itertools_permutations l.
Proof.
  unfold itertools_permutations. rewrite length_fmap.
  apply permutations_of_size_fmap.
Qed.

Lemma min_from_fmap (key : A → Z) (key' : B → Z) best (l : list A) :
  (∀ x, key' (g x) = key x) →
  min_from key' (g best) (g <$> l) = g (min_from key best l).
Proof.
  intros Hkey. revert best. induction l as [|x l IH]; intros best.
  - reflexivity.
  - cbn [min_from fmap list_fmap]. fold (fmap g l). rewrite !Hkey.
    destruct (key x <? key best); apply IH.
Qed.

End Relabel.

(** The optimiser reads a stop only through [stop_location] and
    [stop_shipment_id]: replacing every stop by one with the same two
    readings changes nothing in what it computes. *)
Section ReadsIdentifiersOnly.
Variable f : stop → stop.
Hypothesis f_location : ∀ s, stop_location (f s) = stop_location s.
Hypothesis f_shipment_id : ∀ s, stop_shipment_id (f s) = stop_shipment_id s.

Lemma total_distance_loop_relabel r current total :
  total_distance_loop (f <$> r) current total
  = total_distance_loop r current total.
Proof.
  revert current total. induction r as [|s r IH]; intros; [reflexivity|].
  cbn. rewrite f_location. apply IH.
Qed.

Lemma calculate_total_distance_relabel r start :
  _calculate_total_distance (f <$> r) start = _calculate_total_distance r start.
Proof. apply total_distance_loop_relabel. Qed.

Lemma format_stops_relabel r idx current time :
  format_stops (f <$> r) idx current time = format_stops r idx current time.
Proof.
  revert idx current time. induction r as [|s r IH]; intros; [reflexivity|].
  cbn. rewrite f_location, f_shipment_id. f_equal. apply IH.
Qed.

Lemma format_route_response_relabel r start d :
  _format_route_response (f <$> r) start d = _format_route_response r start d.
Proof.
  unfold _format_route_response.
  now rewrite format_stops_relabel, calculate_total_distance_relabel.
Qed.

Lemma single_stop_route_relabel s start :
  _single_stop_route (f s) start = _single_stop_route s start.
Proof. unfold _single_stop_route. now rewrite f_location, f_shipment_id. Qed.

Lemma brute_force_fold_relabel start (ps : list (list stop)) st :
  foldl (brute_force_step start) (search_state_map f st)
        (fmap (M := list) f <$> ps)
  = search_state_map f (foldl (brute_force_step start) st ps).
Proof.
  revert st. induction ps as [|p ps IH]; intros st; [reflexivity|].
  cbn [foldl fmap list_fmap]. rewrite <- IH. f_equal.
  destruct st as [best d]. unfold brute_force_step. cbn [snd search_state_map].
  fold (fmap f p). rewrite calculate_total_distance_relabel.
  now destruct (below _ d).
Qed.

Lemma brute_force_search_relabel stops start :
  brute_force_search (f <$> stops) start
  = search_state_map f (brute_force_search stops start).
Proof.
  unfold brute_force_search. rewrite itertools_permutations_fmap.
  apply (brute_force_fold_relabel start _ (None, Inf)).
Qed.

Lemma brute_force_optimize_relabel stops start :
  _brute_force_optimize (f <$> stops) start = _brute_force_optimize stops start.
Proof.
  unfold _brute_force_optimize. rewrite brute_force_search_relabel.
  destruct (brute_force_search stops start) as [[best|] [|d]]; cbn;
    try reflexivity.
  apply format_route_response_relabel.
Qed.

Lemma nn_key_relabel st s : nn_key (nn_state_map f st) (f s) = nn_key st s.
Proof. unfold nn_key. cbn. now rewrite f_location. Qed.

Lemma nn_body_unfold st :
  nn_body st
  = bind (min_key (nn_key st) (unvisited st)) (λ nearest,
    bind (list_remove nearest (unvisited st)) (λ unvisited',
    Ok {| unvisited := unvisited';
          route := route st ++ [nearest];
          current_location := stop_location nearest;
          total_distance := total_distance st + nn_key st nearest |})).
Proof. reflexivity. Qed.

Lemma nn_body_relabel st :
  nn_body (nn_state_map f st) = outcome_map (nn_state_map f) (nn_body st).
Proof.
  rewrite !nn_body_unfold. cbn [unvisited nn_state_map].
  destruct (unvisited st) as [|s u] eqn:Hu; [reflexivity|].
  destruct (min_key_split (nn_key st) (s :: u))
    as (l1 & nearest & l2 & Hmin & Heq & Hl1 & _); [discriminate|].
  rewrite Hmin. cbn [min_key] in Hmin. injection Hmin as Hnearest.
  cbn [fmap list_fmap min_key]. fold (fmap f u).
  rewrite (min_from_fmap f (nn_key st) (nn_key (nn_state_map f st)))
    by apply nn_key_relabel.
  rewrite Hnearest. cbn [bind].
  change (f s :: (f <$> u)) with (f <$> s :: u).
  rewrite Heq, fmap_app, fmap_cons.
  rewrite !list_remove_first.
  - cbn [bind outcome_map].
    pose proof (nn_key_relabel st nearest) as Hkey.
    unfold nn_state_map in *.
    cbn [unvisited route current_location total_distance].
    now rewrite Hkey, f_location, !fmap_app.
  - intros Hin. rewrite Forall_forall in Hl1.
    specialize (Hl1 nearest Hin). lia.
  - intros (y & Hfy & Hy)%list_elem_of_fmap.
    rewrite Forall_forall in Hl1. specialize (Hl1 y Hy).
    rewrite <- (nn_key_relabel st y), <- Hfy, nn_key_relabel in Hl1. lia.
Qed.

Lemma nn_loop_relabel n st :
  nn_loop n (nn_state_map f st) = outcome_map (nn_state_map f) (nn_loop n st).
Proof.
  revert st. induction n as [|n IH]; intros st; cbn [nn_loop].
  - cbn [unvisited nn_state_map]. now destruct (unvisited st).
  - cbn [unvisited nn_state_map].
    destruct (unvisited st) as [|s u] eqn:Hu; [reflexivity|].
    cbn [fmap list_fmap]. rewrite nn_body_relabel.
    destruct (nn_body st) as [st'| |]; cbn [outcome_map bind];
      [apply IH|reflexivity|reflexivity].
Qed.

Lemma nearest_neighbor_search_relabel stops start :
  nearest_neighbor_search (f <$> stops) start
  = outcome_map (nn_state_map f) (nearest_neighbor_search stops start).
Proof.
  unfold nearest_neighbor_search. rewrite length_fmap.
  apply (nn_loop_relabel _ (nn_init stops start)).
Qed.

Lemma nearest_neighbor_optimize_relabel stops start :
  _nearest_neighbor_optimize (f <$> stops) start
  = _nearest_neighbor_optimize stops start.
Proof.
  unfold _nearest_neighbor_optimize. rewrite nearest_neighbor_search_relabel.
  destruct (nearest_neighbor_search stops start) as [st| |];
    cbn [outcome_map bind]; try reflexivity.
  apply format_route_response_relabel.
Qed.

Lemma optimize_relabel stops start :
  optimize (f <$> stops) start = optimize stops start.
Proof.
  unfold optimize. rewrite length_fmap, list_lookup_fmap.
  rewrite brute_force_optimize_relabel, nearest_neighbor_optimize_relabel.
  destruct (stops !! 0%nat) as [s|]; cbn [fmap option_fmap option_map];
    [|reflexivity].
  now rewrite single_stop_route_relabel.
Qed.

End ReadsIdentifiersOnly.

Lemma format_route_response_raise r start d e :
  _format_route_response r start d = Raise e → e = ZeroDivisionError.
Proof.
  unfold _format_route_response. cbn zeta. case_decide; [|discriminate].
  now intros [= <-].
Qed.

Lemma brute_force_optimize_raise stops start e :
  _brute_force_optimize stops start = Raise e → e = ZeroDivisionError.
Proof.
  destruct (brute_force_optimize_format stops start) as (r & _ & _ & ->).
  apply format_route_response_raise.
Qed.

Lemma nearest_neighbor_optimize_raise stops start e :
  _nearest_neighbor_optimize stops start = Raise e → e = ZeroDivisionError.
Proof.
  destruct (nearest_neighbor_optimize_format stops start) as (r & _ & ->).
  apply format_route_response_raise.
Qed.

(** C10. A stop without a ["location"] or ["shipment_id"] key is read as
    if the key held the empty string: the distance to it is the distance
    to [""], its entry in the response carries [""], and the cost
    evaluator, both sequencers, the formatter and [optimize] compute the
    same on the stops as on the stops with the missing keys set to [""].
    No operation raises [KeyError]. *)
Theorem missing_fields_read_as_empty (stops : list stop) (start : string) :
  (∀ s : stop, s !! "location" = None → stop_location s = "")
  ∧ (∀ s : stop, s !! "shipment_id" = None → stop_shipment_id s = "")
  ∧ (∀ (s : stop) r current,
       s !! "location" = None →
       _calculate_total_distance (s :: r) current
       = _estimate_distance current "" + _calculate_total_distance r "")
  ∧ (∀ (s : stop) r idx current time,
       ∃ entry rest,
         format_stops (s :: r) idx current time = entry :: rest
         ∧ (s !! "location" = None → location entry = "")
         ∧ (s !! "shipment_id" = None → shipment_id entry = ""))
  ∧ Forall (λ s : stop, is_Some (s !! "location") ∧ is_Some (s !! "shipment_id"))
      (with_defaults <$> stops)
  ∧ _calculate_total_distance (with_defaults <$> stops) start
    = _calculate_total_distance stops start
  ∧ brute_force_search (with_defaults <$> stops) start
    = search_state_map with_defaults (brute_force_search stops start)
  ∧ nearest_neighbor_search (with_defaults <$> stops) start
    = outcome_map (nn_state_map with_defaults)
        (nearest_neighbor_search stops start)
  ∧ (∀ d, _format_route_response (with_defaults <$> stops) start d
          = _format_route_response stops start d)
  ∧ optimize (with_defaults <$> stops) start = optimize stops start
  ∧ _brute_force_optimize stops start ≠ Raise KeyError
  ∧ _nearest_neighbor_optimize stops start ≠ Raise KeyError
  ∧ optimize stops start ≠ Raise KeyError.
Proof.
  split; [apply stop_location_missing|].
  split; [apply stop_shipment_id_missing|].
  split.
  { intros s r current Hs.
    now rewrite calculate_total_distance_cons, (stop_location_missing s Hs). }
  split.
  { intros s r idx current time. eexists _, _. split; [reflexivity|].
    split; intros Hs; cbn.
    - now apply stop_location_missing.
    - now apply stop_shipment_id_missing. }
  split.
  { apply Forall_fmap, Forall_forall. intros s _. apply with_defaults_present. }
  split.
  { apply calculate_total_distance_relabel, with_defaults_location. }
  split.
  { apply brute_force_search_relabel, with_defaults_location. }
  split.
  { apply nearest_neighbor_search_relabel, with_defaults_location. }
  split.
  { intros d. apply format_route_response_relabel;
      [apply with_defaults_location|apply with_defaults_shipment_id]. }
  split.
  { apply optimize_relabel;
      [apply with_defaults_location|apply with_defaults_shipment_id]. }
  split.
  { intros H. now apply brute_force_optimize_raise in H. }
  split.
  { intros H. now apply nearest_neighbor_optimize_raise in H. }
  pose proof (optimize_outcome stops start) as Hout.
  case_decide; [now rewrite Hout|].
  destruct Hout as (resp & ->). discriminate.
Qed.

Lemma missing_fields_read_as_empty_witness :
  _calculate_total_distance
    [ {["shipment_id" := "s1"]}; mk_stop "s2" "B" ] "Start"
  = _estimate_distance "Start" ""
    + _calculate_total_distance [ mk_stop "s2" "B" ] "".
Proof.
  apply (missing_fields_read_as_empty [] "Start").
  vm_compute. reflexivity.
Defined.

(** ** Runs of the heuristic sequencer *)

(** Nine stops, three at each location of the scenario: the greedy loop
    visits the three at ["C"] first, in input order, then those at ["B"],
    then those at ["A"]. *)
Example nearest_neighbor_nine_stops :
  let stops := scenario_stops ++ scenario_stops ++ scenario_stops in
  outcome_map (λ st, (stop_location <$> route st, unvisited st, total_distance st))
    (nearest_neighbor_search stops "Start")
  = Ok (["C"; "C"; "C"; "B"; "B"; "B"; "A"; "A"; "A"], [], 161)
  ∧ optimize stops "Start" = _nearest_neighbor_optimize stops "Start".
Proof. vm_compute. split; reflexivity. Qed.

(** Stops that differ only in a key the optimiser does not read are still
    different stops for [list.remove]: the first of the two nearest is
    taken first. *)
Example nearest_neighbor_keeps_input_order :
  let s1 := <["note" := "first"]> (mk_stop "s1" "A") in
  let s2 := <["note" := "second"]> (mk_stop "s1" "A") in
  outcome_map route (nearest_neighbor_search [stop_B; s1; s2] "A")
  = Ok [s1; s2; stop_B].
Proof. vm_compute. reflexivity. Qed.

(** ** The entries of a response *)

Lemma format_route_response_entries r start d resp :
  _format_route_response r start d = Ok resp →
  optimized_sequence resp = format_stops r 0 start 0%Q.
Proof.
  unfold _format_route_response. cbn zeta. case_decide; [discriminate|].
  now intros [= <-].
Qed.

Lemma format_stops_location r idx current time :
  location <$> format_stops r idx current time = stop_location <$> r.
Proof.
  revert idx current time. induction r as [|s r IH]; intros; cbn.
  - reflexivity.
  - now rewrite IH.
Qed.

Lemma format_stops_distance r idx current time :
  Forall2 (λ q z, (q == inject_Z z)%Q)
    (distance_from_previous <$> format_stops r idx current time)
    (hop_distances current (stop_location <$> r)).
Proof.
  revert idx current time. induction r as [|s r IH]; intros; cbn.
  - constructor.
  - constructor; [apply round_inject_Z|apply IH].
Qed.

Lemma hop_distances_total r start :
  foldr Z.add 0 (hop_distances start (stop_location <$> r))
  = _calculate_total_distance r start.
Proof.
  revert start. induction r as [|s r IH]; intros start.
  - reflexivity.
  - rewrite calculate_total_distance_cons. cbn. now rewrite IH.
Qed.

Lemma Qsum_inject_Z (qs : list Q) (zs : list Z) :
  Forall2 (λ q z, (q == inject_Z z)%Q) qs zs →
  (Qsum qs == inject_Z (foldr Z.add 0%Z zs))%Q.
Proof.
  induction 1 as [|q z qs zs Hq _ IH]; cbn.
  - reflexivity.
  - now rewrite inject_Z_plus, Hq, IH.
Qed.

(** Every response of [optimize] comes from the formatter's loop over an
    ordering of the stops, with the cost of that ordering as total. *)
Lemma optimize_entries stops start resp :
  optimize stops start = Ok resp →
  ∃ r,
    r ≡ₚ stops
    ∧ (total_distance_km resp == inject_Z (_calculate_total_distance r start))%Q
    ∧ sequence <$> optimized_sequence resp
      = (λ k, Z.of_nat k + 1) <$> seq 0 (length r)
    ∧ location <$> optimized_sequence resp = stop_location <$> r
    ∧ Forall2 (λ q z, (q == inject_Z z)%Q)
        (distance_from_previous <$> optimized_sequence resp)
        (hop_distances start (stop_location <$> r)).
Proof.
  intros Hresp.
  destruct (optimize_cases stops start)
    as [[-> Heq]|[(s & -> & Heq)|[[Hlen _]|[Hlen _]]]].
  - rewrite Heq in Hresp. injection Hresp as <-. exists [].
    repeat split; try reflexivity. constructor.
  - rewrite Heq in Hresp. injection Hresp as <-. exists [s].
    split; [reflexivity|]. split; [apply round_inject_Z|].
    repeat split; try reflexivity. cbn.
    constructor; [apply round_inject_Z|constructor].
  - destruct (optimize_format stops start) as (r & Hperm & Heq); [lia|].
    rewrite Heq in Hresp. exists r. split; [assumption|].
    rewrite (format_route_response_entries _ _ _ _ Hresp).
    apply format_route_response_Ok in Hresp as (_ & _ & Hd & _).
    split; [assumption|]. split; [|split].
    + rewrite format_stops_sequence. apply list_fmap_ext. intros; lia.
    + apply format_stops_location.
    + apply format_stops_distance.
  - destruct (optimize_format stops start) as (r & Hperm & Heq); [lia|].
    rewrite Heq in Hresp. exists r. split; [assumption|].
    rewrite (format_route_response_entries _ _ _ _ Hresp).
    apply format_route_response_Ok in Hresp as (_ & _ & Hd & _).
    split; [assumption|]. split; [|split].
    + rewrite format_stops_sequence. apply list_fmap_ext. intros; lia.
    + apply format_stops_location.
    + apply format_stops_distance.
Qed.

(** X1. The entries of every response are numbered 1, 2, ..., n in the
    order in which they are listed, n being the number of stops. *)
Theorem response_sequence_numbers (stops : list stop) (start : string)
    (resp : response) :
  optimize stops start = Ok resp →
  sequence <$> optimized_sequence resp
  = (λ k, Z.of_nat k + 1) <$> seq 0 (length stops).
Proof.
  intros (r & Hperm & _ & Hseq & _)%optimize_entries.
  now rewrite Hseq, (Permutation_length Hperm).
Qed.

Lemma response_sequence_numbers_witness :
  sequence <$> optimized_sequence scenario_response
  = (λ k, Z.of_nat k + 1) <$> seq 0 (length scenario_stops).
Proof.
  apply (response_sequence_numbers scenario_stops "Start").
  vm_compute. reflexivity.
Defined.

(** X2. In every response the distance recorded for an entry is the
    oracle distance from the location of the entry before it, or from the
    origin for the first entry, and these distances add up to the reported
    total distance. *)
Theorem response_distances_consistent (stops : list stop) (start : string)
    (resp : response) :
  optimize stops start = Ok resp →
  Forall2 (λ q z, (q == inject_Z z)%Q)
    (distance_from_previous <$> optimized_sequence resp)
    (hop_distances start (location <$> optimized_sequence resp))
  ∧ (Qsum (distance_from_previous <$> optimized_sequence resp)
     == total_distance_km resp)%Q.
Proof.
  intros (r & _ & Htotal & _ & Hloc & Hdist)%optimize_entries.
  rewrite Hloc. split; [assumption|].
  now rewrite (Qsum_inject_Z _ _ Hdist), hop_distances_total, Htotal.
Qed.

Lemma response_distances_consistent_witness :
  Forall2 (λ q z, (q == inject_Z z)%Q)
    (distance_from_previous <$> optimized_sequence scenario_response)
    (hop_distances "Start" (location <$> optimized_sequence scenario_response))
  ∧ (Qsum (distance_from_previous <$> optimized_sequence scenario_response)
     == total_distance_km scenario_response)%Q.
Proof.
  apply (response_distances_consistent scenario_stops "Start").
  vm_compute. reflexivity.
Defined.

(** ** Bounds on the total distance *)

Lemma calculate_total_distance_upper r start :
  _calculate_total_distance r start ≤ 499 * Z.of_nat (length r).
Proof.
  revert start. induction r as [|s r IH]; intros start.
  - now rewrite calculate_total_distance_nil.
  - rewrite calculate_total_distance_cons. cbn [length].
    pose proof (estimate_distance_range start (stop_location s)).
    specialize (IH (stop_location s)). lia.
Qed.

Lemma calculate_total_distance_lower r start :
  _calculate_total_distance r start ≠ 0 → 50 ≤ _calculate_total_distance r start.
Proof.
  revert start. induction r as [|s r IH]; intros start.
  - now rewrite calculate_total_distance_nil.
  - rewrite calculate_total_distance_cons.
    pose proof (estimate_distance_range start (stop_location s)).
    pose proof (calculate_total_distance_nonneg r (stop_location s)).
    specialize (IH (stop_location s)). lia.
Qed.

(** X3. The total distance of a response is never negative and never more
    than 499 per stop; with two stops or more it is at least 50. *)
Theorem response_total_distance_bounds (stops : list stop) (start : string)
    (resp : response) :
  optimize stops start = Ok resp →
  (0 <= total_distance_km resp)%Q
  ∧ (total_distance_km resp <= inject_Z (499 * Z.of_nat (length stops)))%Q
  ∧ ((2 ≤ length stops)%nat → (50 <= total_distance_km resp)%Q).
Proof.
  intros Hresp.
  destruct (optimize_entries _ _ _ Hresp) as (r & Hperm & Htotal & _).
  rewrite Htotal, <- (Permutation_length Hperm).
  split; [|split].
  - change 0%Q with (inject_Z 0). rewrite <- Zle_Qle.
    apply calculate_total_distance_nonneg.
  - rewrite <- Zle_Qle. apply calculate_total_distance_upper.
  - intros Hlen. destruct (optimize_format stops start) as (r' & _ & Heq);
      [rewrite <- (Permutation_length Hperm); assumption|].
    rewrite Heq in Hresp.
    apply format_route_response_Ok in Hresp as (Hnz & _ & Hd & _).
    rewrite <- Htotal, Hd. change 50%Q with (inject_Z 50).
    rewrite <- Zle_Qle. now apply calculate_total_distance_lower.
Qed.

Lemma response_total_distance_bounds_witness :
  (0 <= total_distance_km scenario_response)%Q
  ∧ (total_distance_km scenario_response
     <= inject_Z (499 * Z.of_nat (length scenario_stops)))%Q
  ∧ ((2 ≤ length scenario_stops)%nat → (50 <= total_distance_km scenario_response)%Q).
Proof.
  apply (response_total_distance_bounds scenario_stops "Start").
  vm_compute. reflexivity.
Defined.

(** ** The two sequencers compared *)

(** X4. On the same stops the route of the exhaustive search never costs
    more than the route of the greedy loop, and on some inputs it costs
    strictly less: from ["H"] through ["F"], ["K"] and ["@"] the greedy
    route costs 168 and the exact one 164. *)
Theorem exact_never_worse_than_greedy :
  (∀ stops start,
     ∃ best st,
       brute_force_search stops start
       = (Some best, Fin (_calculate_total_distance best start))
       ∧ nearest_neighbor_search stops start = Ok st
       ∧ _calculate_total_distance best start ≤ total_distance st)
  ∧ ∃ stops start best st,
      brute_force_search stops start
      = (Some best, Fin (_calculate_total_distance best start))
      ∧ nearest_neighbor_search stops start = Ok st
      ∧ _calculate_total_distance best start < total_distance st.
Proof.
  split.
  - intros stops start.
    destruct (brute_force_search_first_minimum stops start)
      as (i & best & (_ & Hmin & _) & Hsearch).
    destruct (nearest_neighbor_search_spec stops start)
      as (st & Hnn & _ & Hperm & Htotal).
    exists best, st. split; [assumption|]. split; [assumption|].
    rewrite Htotal. now apply Hmin, itertools_permutations_spec.
  - exists [mk_stop "s1" "F"; mk_stop "s2" "K"; mk_stop "s3" "@"], "H",
      [mk_stop "s2" "K"; mk_stop "s1" "F"; mk_stop "s3" "@"],
      {| unvisited := [];
         route := [mk_stop "s1" "F"; mk_stop "s2" "K"; mk_stop "s3" "@"];
         current_location := "@";
         total_distance := 168 |}.
    split; [vm_compute; reflexivity|].
    split; [vm_compute; reflexivity|]. vm_compute. reflexivity.
Qed.

(** The cost found by the exhaustive search is the same for every
    ordering of the stops. *)
Lemma brute_force_cost_perm (stops stops' : list stop) (start : string) :
  stops ≡ₚ stops' →
  (brute_force_search stops start).2 = (brute_force_search stops' start).2.
Proof.
  intros Hperm.
  destruct (brute_force_search_first_minimum stops start)
    as (i & best & (Hi & Hmin & _) & ->).
  destruct (brute_force_search_first_minimum stops' start)
    as (i' & best' & (Hi' & Hmin' & _) & ->).
  cbn. f_equal.
  apply list_elem_of_lookup_2, itertools_permutations_spec in Hi, Hi'.
  assert (_calculate_total_distance best start
          ≤ _calculate_total_distance best' start).
  { apply Hmin, itertools_permutations_spec. now rewrite Hi', Hperm. }
  assert (_calculate_total_distance best' start
          ≤ _calculate_total_distance best start).
  { apply Hmin', itertools_permutations_spec. now rewrite Hi, Hperm. }
  lia.
Qed.

(** X5. The cost found by the exhaustive search does not depend on the
    order in which the stops are given; so with at most 8 stops the total
    distance and the total time reported by [optimize] do not depend on
    it either. *)
Theorem exact_cost_independent_of_input_order (stops stops' : list stop)
    (start : string) :
  stops ≡ₚ stops' →
  (brute_force_search stops start).2 = (brute_force_search stops' start).2
  ∧ ((length stops ≤ 8)%nat →
     ∀ resp resp',
       optimize stops start = Ok resp →
       optimize stops' start = Ok resp' →
       (total_distance_km resp == total_distance_km resp')%Q
       ∧ (total_time_hours resp == total_time_hours resp')%Q).
Proof.
  intros Hperm. split; [now apply brute_force_cost_perm|].
  intros Hlen resp resp' Hresp Hresp'.
  pose proof (Permutation_length Hperm) as Hlen'.
  destruct (optimize_cases stops start)
    as [[-> Heq]|[(s & -> & Heq)|[[Hl Heq]|[Hl _]]]]; [| | |lia].
  - apply Permutation.Permutation_nil in Hperm. subst stops'.
    rewrite Heq in Hresp, Hresp'. injection Hresp as <-.
    injection Hresp' as <-. split; reflexivity.
  - apply Permutation.Permutation_length_1_inv in Hperm. subst stops'.
    rewrite Heq in Hresp, Hresp'. injection Hresp as <-.
    injection Hresp' as <-. split; reflexivity.
  - destruct (optimize_cases stops' start)
      as [[-> _]|[(s & -> & _)|[[_ Heq']|[Hl' _]]]]; cbn in Hlen'; try lia.
    rewrite Heq in Hresp. rewrite Heq' in Hresp'.
    destruct (brute_force_optimize_format stops start)
      as (best & Hsearch & _ & Hfmt).
    destruct (brute_force_optimize_format stops' start)
      as (best' & Hsearch' & _ & Hfmt').
    rewrite Hfmt in Hresp. rewrite Hfmt' in Hresp'.
    pose proof (brute_force_cost_perm stops stops' start Hperm) as Hcost.
    rewrite Hsearch, Hsearch' in Hcost. cbn in Hcost. injection Hcost as Hcost.
    apply format_route_response_Ok in Hresp as (_ & _ & Hd & Ht).
    apply format_route_response_Ok in Hresp' as (_ & _ & Hd' & Ht').
    rewrite Hd, Hd', Ht, Ht', Hcost. split; reflexivity.
Qed.

Lemma exact_cost_independent_of_input_order_witness :
  (brute_force_search [stop_A; stop_B; stop_C] "Start").2
  = (brute_force_search [stop_C; stop_A; stop_B] "Start").2
  ∧ ((length [stop_A; stop_B; stop_C] ≤ 8)%nat →
     ∀ resp resp',
       optimize [stop_A; stop_B; stop_C] "Start" = Ok resp →
       optimize [stop_C; stop_A; stop_B] "Start" = Ok resp' →
       (total_distance_km resp == total_distance_km resp')%Q
       ∧ (total_time_hours resp == total_time_hours resp')%Q).
Proof.
  apply (exact_cost_independent_of_input_order
           [stop_A; stop_B; stop_C] [stop_C; stop_A; stop_B] "Start").
  change [stop_C; stop_A; stop_B] with ([stop_C] ++ [stop_A; stop_B]).
  change [stop_A; stop_B; stop_C] with ([stop_A; stop_B] ++ [stop_C]).
  apply Permutation_app_comm.
Defined.

(** The greedy loop appends a greedy segment. *)
Lemma nn_loop_greedy n st :
  (length (unvisited st) ≤ n)%nat →
  ∃ seg st',
    nn_loop n st = Ok st'
    ∧ route st' = route st ++ seg
    ∧ greedy_route (current_location st) seg.
Proof.
  revert st. induction n as [|n IH]; intros st Hlen.
  - destruct st as [[|s u] r c t]; cbn in Hlen; [|lia].
    exists [], (NNState [] r c t). cbn. now rewrite app_nil_r.
  - destruct (unvisited st) as [|s u] eqn:Hu.
    + exists [], st. cbn. rewrite Hu, app_nil_r. now repeat split.
    + destruct (nn_body_spec st) as (l1 & nearest & l2 & Hsplit & Hbody).
      { now rewrite Hu. }
      destruct Hsplit as (Heq & Hl1 & Hl2). rewrite Hu in Heq.
      cbn [nn_loop]. rewrite Hu, Hbody. cbn [bind].
      match goal with |- context [nn_loop n ?s] =>
        destruct (nn_loop_spec n s) as (seg & st' & Hloop & _ & _ & Hperm & _);
        [|destruct (IH s) as (seg' & st'' & Hloop' & Hroute & Hgreedy)]
      end.
      1,2: cbn; apply (f_equal length) in Heq;
        rewrite length_app in *; cbn in *; lia.
      cbn in Hperm, Hroute, Hgreedy.
      rewrite Hloop in Hloop'. injection Hloop' as <-.
      exists (nearest :: seg'), st'. split; [assumption|]. split.
      * now rewrite Hroute, <- app_assoc.
      * split; [|assumption].
        assert (seg' ≡ₚ l1 ++ l2) as Hseg.
        { destruct (nn_loop_spec n
            {| unvisited := l1 ++ l2; route := route st ++ [nearest];
               current_location := stop_location nearest;
               total_distance := total_distance st + nn_key st nearest |})
            as (seg2 & st2 & Hloop2 & _ & Hroute2 & Hperm2 & _).
          { cbn. apply (f_equal length) in Heq.
            rewrite length_app in *; cbn in *; lia. }
          rewrite Hloop in Hloop2. injection Hloop2 as <-.
          cbn in Hroute2, Hperm2. rewrite Hroute in Hroute2.
          apply app_inv_head in Hroute2. now subst. }
        rewrite Hseg. apply Forall_app. split.
        -- eapply Forall_impl; [exact Hl1|]. cbn. unfold nn_key. intros; lia.
        -- exact Hl2.
Qed.

(** X6. The route built by the greedy loop is greedy throughout: each of
    its stops is at least as near to the place before it (the origin for
    the first stop) as every stop that comes later in the route. *)
Theorem nearest_neighbor_route_is_greedy (stops : list stop) (start : string) :
  ∃ st,
    nearest_neighbor_search stops start = Ok st
    ∧ route st ≡ₚ stops
    ∧ greedy_route start (route st).
Proof.
  destruct (nearest_neighbor_search_spec stops start)
    as (st & Hsearch & _ & Hperm & _).
  destruct (nn_loop_greedy (length stops) (nn_init stops start))
    as (seg & st' & Hloop & Hroute & Hgreedy); [reflexivity|].
  unfold nearest_neighbor_search in Hsearch.
  rewrite Hloop in Hsearch. injection Hsearch as ->.
  cbn in Hroute, Hgreedy. exists st.
  split; [exact Hloop|]. split; [assumption|]. now rewrite Hroute.
Qed.

(** X7. With at most two stops the greedy loop and the exhaustive search
    give the same result, so the choice between them only matters from
    three stops on. *)
Theorem sequencers_agree_up_to_two_stops (stops : list stop) (start : string) :
  (length stops ≤ 2)%nat →
  _nearest_neighbor_optimize stops start = _brute_force_optimize stops start.
Proof.
  intros Hlen. destruct stops as [|a [|b [|c stops]]]; cbn in Hlen; try lia.
  - reflexivity.
  - unfold _nearest_neighbor_optimize, nearest_neighbor_search,
      _brute_force_optimize, brute_force_search.
    cbn. rewrite decide_True by reflexivity. reflexivity.
  - unfold _nearest_neighbor_optimize, nearest_neighbor_search,
      _brute_force_optimize, brute_force_search.
    cbn. unfold brute_force_step, _calculate_total_distance. cbn.
    rewrite (estimate_distance_sym (stop_location b) (stop_location a)).
    set (da := _estimate_distance start (stop_location a)).
    set (db := _estimate_distance start (stop_location b)).
    set (dab := _estimate_distance (stop_location a) (stop_location b)).
    destruct (Z.ltb_spec db da) as [Hlt|Hge].
    + rewrite (proj2 (Z.ltb_lt (0 + db + dab) (0 + da + dab))) by lia.
      rewrite decide_False.
      2: { intros ->. subst da db. lia. }
      rewrite decide_True by reflexivity. cbn.
      unfold nn_body. cbn. rewrite decide_True by reflexivity. cbn.
      rewrite (estimate_distance_sym (stop_location b) (stop_location a)).
      reflexivity.
    + rewrite (proj2 (Z.ltb_ge (0 + db + dab) (0 + da + dab))) by lia.
      rewrite decide_True by reflexivity. cbn.
      unfold nn_body. cbn. rewrite decide_True by reflexivity. cbn.
      reflexivity.
Qed.

Lemma sequencers_agree_up_to_two_stops_witness :
  _nearest_neighbor_optimize [stop_A; stop_B] "Start"
  = _brute_force_optimize [stop_A; stop_B] "Start".
Proof.
  apply (sequencers_agree_up_to_two_stops [stop_A; stop_B] "Start").
  cbn. lia.
Defined.

(** ** The single-stop case against the general path *)

(** X8. For one stop the answer of [optimize] is the one the general path
    gives whenever that path returns: same entry, same totals, savings 0.
    The general path raises when the stop is at the origin, where
    [optimize] still answers, with a total distance of 0. *)
Theorem single_stop_matches_general_path (s : stop) (start : string) :
  (∀ resp,
     _brute_force_optimize [s] start = Ok resp →
     stop_location s ≠ start
     ∧ entry_ids <$> optimized_sequence resp
       = entry_ids <$> optimized_sequence (_single_stop_route s start)
     ∧ sequence <$> optimized_sequence resp
       = sequence <$> optimized_sequence (_single_stop_route s start)
     ∧ distance_from_previous <$> optimized_sequence resp
       = distance_from_previous <$> optimized_sequence (_single_stop_route s start)
     ∧ Forall2 Qeq (estimated_arrival <$> optimized_sequence resp)
         (estimated_arrival <$> optimized_sequence (_single_stop_route s start))
     ∧ total_distance_km resp = total_distance_km (_single_stop_route s start)
     ∧ total_time_hours resp = total_time_hours (_single_stop_route s start)
     ∧ (fuel_savings_percent resp
        == fuel_savings_percent (_single_stop_route s start))%Q)
  ∧ (stop_location s = start →
     _brute_force_optimize [s] start = Raise ZeroDivisionError
     ∧ optimize [s] start = Ok (_single_stop_route s start)
     ∧ (total_distance_km (_single_stop_route s start) == 0)%Q).
Proof.
  assert (_brute_force_optimize [s] start
          = _format_route_response [s] start (_calculate_total_distance [s] start))
    as Hbf by reflexivity.
  split.
  - intros resp Hresp. rewrite Hbf in Hresp.
    pose proof (format_route_response_savings _ _ _ Hresp) as Hsav.
    unfold _format_route_response in Hresp. cbn zeta in Hresp.
    case_decide as Hzero; [discriminate|]. injection Hresp as <-.
    split.
    { intros Heq. apply Hzero, calculate_total_distance_zero.
      now constructor. }
    unfold _calculate_total_distance. cbn.
    repeat (split; [reflexivity|]). split.
    { constructor; [|constructor]. apply Qplus_0_l. }
    repeat (split; [reflexivity|]).
    cbn in Hsav. rewrite Hsav. reflexivity.
  - intros Heq. split; [|split].
    + rewrite Hbf. apply format_route_response_raises,
        calculate_total_distance_zero. now constructor.
    + reflexivity.
    + cbn. rewrite Heq, estimate_distance_refl. reflexivity.
Qed.

Lemma single_stop_matches_general_path_witness :
  _brute_force_optimize [stop_A] "A" = Raise ZeroDivisionError
  ∧ optimize [stop_A] "A" = Ok (_single_stop_route stop_A "A")
  ∧ (total_distance_km (_single_stop_route stop_A "A") == 0)%Q.
Proof.
  apply (single_stop_matches_general_path stop_A "A").
  vm_compute. reflexivity.
Defined.

(** ** The size of the exhaustive search *)

Lemma selections_length {A} (l : list A) :
  length (selections l) = length l.
Proof.
  induction l as [|x l IH]; [reflexivity|].
  cbn. now rewrite length_fmap, IH.
Qed.

Lemma selections_rest_length {A} (l : list A) x r :
  (x, r) ∈ selections l → S (length r) = length l.
Proof.
  intros Hperm%selections_perm. apply Permutation_length in Hperm.
  cbn in Hperm. lia.
Qed.

Lemma bind_length_const {A B} (f : A → list B) (l : list A) k :
  (∀ x, x ∈ l → length (f x) = k) →
  length (l ≫= f) = (length l * k)%nat.
Proof.
  induction l as [|x l IH]; intros Hall; [reflexivity|].
  rewrite bind_cons, length_app, Hall, IH by (try left; intros; apply Hall; now right).
  cbn. lia.
Qed.

Lemma permutations_of_size_length {A} n (l : list A) :
  length l = n → length (permutations_of_size n l) = fact n.
Proof.
  revert l. induction n as [|n IH]; intros l Hlen; [reflexivity|].
  cbn [permutations_of_size].
  rewrite (bind_length_const _ _ (fact n)).
  - rewrite selections_length, Hlen. reflexivity.
  - intros [x r] Hin. cbn. rewrite length_fmap. apply IH.
    apply selections_rest_length in Hin. lia.
Qed.

(** X9. The exhaustive search evaluates exactly n! orderings of n stops,
    hence at most 40320 on the inputs [optimize] sends to it. *)
Theorem exhaustive_search_size (stops : list stop) :
  length (itertools_permutations stops) = fact (length stops)
  ∧ ((length stops ≤ 8)%nat →
     Z.of_nat (length (itertools_permutations stops)) ≤ 40320).
Proof.
  assert (length (itertools_permutations stops) = fact (length stops)) as Hlen
    by now apply permutations_of_size_length.
  split; [assumption|]. intros Hle. rewrite Hlen.
  apply Factorial.fact_le in Hle. apply Nat2Z.inj_le in Hle.
  etransitivity; [exact Hle|]. vm_compute. discriminate.
Qed.

Lemma exhaustive_search_size_witness :
  Z.of_nat (length (itertools_permutations scenario_stops)) ≤ 40320.
Proof.
  apply (exhaustive_search_size scenario_stops). cbn. lia.
Defined.

(** ** The savings computed by the formatter *)

Lemma round_half_even_nonneg (x : Q) : (0 <= x)%Q → 0 ≤ round_half_even x.
Proof.
  intros Hx. assert (0 ≤ Qfloor x) as Hfloor.
  { change 0 with (Qfloor 0). now apply Qfloor_resp_le. }
  unfold round_half_even.
  destruct (Qcompare _ _); [destruct (Z.even _)| |]; lia.
Qed.

Lemma round_half_even_upper (x : Q) (n : Z) :
  (x <= inject_Z n)%Q → round_half_even x ≤ n.
Proof.
  intros Hx. pose proof (round_half_even_error x) as Herr.
  apply Qabs_Qle_condition in Herr as [_ Herr].
  assert (inject_Z (round_half_even x) < inject_Z (n + 1))%Q as Hlt.
  { rewrite inject_Z_plus. change (inject_Z 1) with 1%Q.
    set (r := inject_Z (round_half_even x)) in *. clearbody r.
    set (m := inject_Z n) in *. clearbody m. lra. }
  rewrite <- Zlt_Qlt in Hlt. lia.
Qed.

Lemma max_zero_nonneg (b : Q) : (0 <= Py.max 0%Q b)%Q.
Proof.
  unfold Py.max. destruct (Qcompare b 0) eqn:Hcmp; try apply Qle_refl.
  apply Qgt_alt in Hcmp. now apply Qlt_le_weak.
Qed.

Lemma max_zero_upper (b c : Q) : (0 <= c)%Q → (b <= c)%Q → (Py.max 0%Q b <= c)%Q.
Proof. intros Hc Hb. unfold Py.max. now destruct (Qcompare b 0). Qed.

(** X10. Whatever total it is given, the formatter never reports negative
    savings, and for a total that is not negative it never reports more
    than 100 percent. *)
Theorem formatter_savings_range (r : list stop) (start : string) (d : Z)
    (resp : response) :
  _format_route_response r start d = Ok resp →
  (0 <= fuel_savings_percent resp)%Q
  ∧ (0 ≤ d → (fuel_savings_percent resp <= 100)%Q).
Proof.
  unfold _format_route_response. cbn zeta. case_decide as Hzero; [discriminate|].
  intros [= <-]. cbn [fuel_savings_percent].
  pose proof (calculate_total_distance_nonneg r start) as Hnonneg.
  set (u := _calculate_total_distance r start) in *.
  set (b := (inject_Z (u - d) / inject_Z u * 100)%Q).
  unfold round. change (inject_Z (10 ^ Z.of_nat 1)) with 10%Q.
  split.
  - apply Qle_shift_div_l; [reflexivity|]. rewrite Qmult_0_l.
    change 0%Q with (inject_Z 0). rewrite <- Zle_Qle.
    apply round_half_even_nonneg.
    apply Qmult_le_0_compat; [apply max_zero_nonneg|discriminate].
  - intros Hd. apply Qle_shift_div_r; [reflexivity|].
    change (100 * 10)%Q with (inject_Z 1000). rewrite <- Zle_Qle.
    apply round_half_even_upper.
    assert (Py.max 0%Q b <= 100)%Q as Hmax.
    { apply max_zero_upper; [discriminate|]. unfold b.
      assert (inject_Z (u - d) / inject_Z u <= 1)%Q as Hq.
      { apply Qle_shift_div_r.
        - change 0%Q with (inject_Z 0). rewrite <- Zlt_Qlt. lia.
        - rewrite Qmult_1_l, <- Zle_Qle. lia. }
      set (q := (inject_Z (u - d) / inject_Z u)%Q) in *. clearbody q. lra. }
    set (m := Py.max 0%Q b) in *. clearbody m.
    change (inject_Z 1000) with 1000%Q. lra.
Qed.

Lemma formatter_savings_range_witness :
  (0 <= fuel_savings_percent scenario_response)%Q
  ∧ (0 ≤ 161 → (fuel_savings_percent scenario_response <= 100)%Q).
Proof.
  apply (formatter_savings_range [stop_C; stop_B; stop_A] "Start" 161).
  vm_compute. reflexivity.
Defined.

(** ** The request handler *)

Lemma request_stop_location i sid :
  stop_location (request_stop i sid) = "Location " +:+ str_of_nat (i + 1).
Proof.
  unfold stop_location, dict_get, request_stop.
  now rewrite lookup_insert_eq.
Qed.

Lemma request_stop_shipment_id i sid :
  stop_shipment_id (request_stop i sid) = sid.
Proof.
  unfold stop_shipment_id, dict_get, request_stop.
  rewrite lookup_insert_ne by discriminate. now rewrite lookup_insert_eq.
Qed.

Lemma request_stops_shipment_ids ids :
  stop_shipment_id <$> request_stops ids = ids.
Proof.
  unfold request_stops. rewrite fmap_imap.
  rewrite (imap_ext _ (λ _ sid, sid)).
  - rewrite (imap_const id). apply list_fmap_id.
  - intros i sid _. apply request_stop_shipment_id.
Qed.

Lemma str_of_nat_inj n m : str_of_nat n = str_of_nat m → n = m.
Proof.
  unfold str_of_nat. intros Heq.
  apply (f_equal NilEmpty.uint_of_string) in Heq.
  rewrite !NilEmpty.usu in Heq. injection Heq as Heq.
  apply (f_equal Nat.of_uint) in Heq. now rewrite !Unsigned.of_to in Heq.
Qed.

Lemma request_stop_location_inj i j sid sid' :
  stop_location (request_stop i sid) = stop_location (request_stop j sid') →
  i = j.
Proof.
  rewrite !request_stop_location. intros Heq.
  apply (inj (String.append "Location ")) in Heq.
  apply str_of_nat_inj in Heq. lia.
Qed.

(** The stops built for a request are at pairwise distinct locations. *)
Lemma request_stops_locations_NoDup ids :
  NoDup (stop_location <$> request_stops ids).
Proof.
  apply NoDup_alt. intros i j loc Hi Hj.
  rewrite list_lookup_fmap in Hi, Hj. unfold request_stops in Hi, Hj.
  rewrite list_lookup_imap in Hi, Hj.
  destruct (ids !! i) as [sid|]; [|discriminate].
  destruct (ids !! j) as [sid'|]; [|discriminate].
  cbn in Hi, Hj. injection Hi as Hi. injection Hj as Hj.
  apply (request_stop_location_inj i j sid sid'). congruence.
Qed.

Lemma optimize_shipment_ids stops start resp :
  optimize stops start = Ok resp →
  length (optimized_sequence resp) = length stops
  ∧ shipment_id <$> optimized_sequence resp ≡ₚ stop_shipment_id <$> stops.
Proof.
  intros Hresp.
  assert (∃ r, r ≡ₚ stops
               ∧ entry_ids <$> optimized_sequence resp = stop_ids <$> r)
    as (r & Hperm & Hids).
  { destruct (optimize_cases stops start)
      as [[-> Heq]|[(s & -> & Heq)|[[Hlen _]|[Hlen _]]]].
    - rewrite Heq in Hresp. injection Hresp as <-. now exists [].
    - rewrite Heq in Hresp. injection Hresp as <-. now exists [s].
    - destruct (optimize_format stops start) as (r & Hperm & Heq); [lia|].
      rewrite Heq in Hresp.
      apply format_route_response_Ok in Hresp as (_ & Hids & _). eauto.
    - destruct (optimize_format stops start) as (r & Hperm & Heq); [lia|].
      rewrite Heq in Hresp.
      apply format_route_response_Ok in Hresp as (_ & Hids & _). eauto. }
  split.
  - apply (f_equal length) in Hids. rewrite !length_fmap in Hids.
    rewrite Hids. now apply Permutation_length.
  - apply (f_equal (fmap fst)) in Hids.
    rewrite <- !list_fmap_compose in Hids.
    change (fst ∘ entry_ids) with shipment_id in Hids.
    change (fst ∘ stop_ids) with stop_shipment_id in Hids.
    rewrite Hids. now apply fmap_Permutation.
Qed.

(** X11. The endpoint never answers 500 because of the optimiser: for
    every list of shipment identifiers and every start location the
    optimiser returns a response, with one entry per shipment and the
    requested identifiers, each once. *)
Theorem optimize_route_always_answers (shipment_ids : list string)
    (start_location : string) :
  ∃ body,
    optimize_route shipment_ids start_location = Some (Http200 body)
    ∧ length (optimized_sequence body) = length shipment_ids
    ∧ shipment_id <$> optimized_sequence body ≡ₚ shipment_ids.
Proof.
  unfold optimize_route.
  pose proof (optimize_outcome (request_stops shipment_ids) start_location)
    as Hout.
  case_decide as Hcase.
  - exfalso. destruct Hcase as [Hlen Hall].
    pose proof (request_stops_locations_NoDup shipment_ids) as Hnodup.
    destruct (request_stops shipment_ids) as [|a [|b rest]];
      cbn in Hlen; try lia.
    apply Forall_cons in Hall as [Ha Hall].
    apply Forall_cons in Hall as [Hb _].
    cbn in Hnodup. apply NoDup_cons in Hnodup as [Hnotin _].
    apply Hnotin. rewrite Ha, <- Hb. now left.
  - destruct Hout as (resp & Hresp). rewrite Hresp. exists resp.
    split; [reflexivity|].
    destruct (optimize_shipment_ids _ _ _ Hresp) as (Hlen & Hids).
    rewrite Hlen, Hids. unfold request_stops.
    rewrite length_imap. split; [reflexivity|].
    fold (request_stops shipment_ids).
    now rewrite request_stops_shipment_ids.
Qed.

(** A walk through pairwise distinct locations costs at least 50 per hop
    between stops, and 50 more when it does not start at one of them. *)
Lemma calculate_total_distance_distinct r start :
  NoDup (stop_location <$> r) →
  50 * (Z.of_nat (length r) - 1) ≤ _calculate_total_distance r start
  ∧ (start ∉ stop_location <$> r →
     50 * Z.of_nat (length r) ≤ _calculate_total_distance r start).
Proof.
  revert start. induction r as [|s r IH]; intros start Hnodup.
  - rewrite calculate_total_distance_nil. cbn. split; [lia|intros; lia].
  - rewrite fmap_cons in Hnodup. apply NoDup_cons in Hnodup as [Hnotin Hnodup].
    destruct (IH (stop_location s) Hnodup) as [_ IHr].
    specialize (IHr Hnotin).
    rewrite calculate_total_distance_cons. cbn [length].
    pose proof (estimate_distance_range start (stop_location s)) as Hd.
    split; [lia|].
    intros Hstart. rewrite fmap_cons in Hstart.
    apply not_elem_of_cons in Hstart as [Hne _].
    rewrite (estimate_distance_distinct _ _ Hne) in *.
    pose proof (Z.mod_pos_bound
      (Z.abs (sum_ord start - sum_ord (stop_location s))) 450). lia.
Qed.

(** X12. The stops of a request are at pairwise distinct locations, so the
    entries of the answer are too, and the total distance of the answer is
    at least 50 for every stop after the first. *)
Theorem optimize_route_distance_lower_bound (shipment_ids : list string)
    (start_location : string) (body : response) :
  optimize_route shipment_ids start_location = Some (Http200 body) →
  NoDup (location <$> optimized_sequence body)
  ∧ (inject_Z (50 * (Z.of_nat (length shipment_ids) - 1))
     <= total_distance_km body)%Q.
Proof.
  unfold optimize_route.
  destruct (optimize (request_stops shipment_ids) start_location)
    as [resp| |] eqn:Hresp; try discriminate.
  intros [= <-].
  destruct (optimize_entries _ _ _ Hresp) as (r & Hperm & Htotal & _ & Hloc & _).
  assert (NoDup (stop_location <$> r)) as Hnodup.
  { rewrite Hperm. apply request_stops_locations_NoDup. }
  split; [now rewrite Hloc|].
  rewrite Htotal, <- Zle_Qle.
  replace (length shipment_ids) with (length r).
  - now apply calculate_total_distance_distinct.
  - rewrite (Permutation_length Hperm). apply length_imap.
Qed.

Lemma optimize_route_distance_lower_bound_witness :
  NoDup (location <$> optimized_sequence
           {| optimized_sequence :=
                [ {| shipment_id := "s1"; sequence := 1;
                     location := "Location 1";
                     estimated_arrival := 448 # 60;
                     distance_from_previous := 44800 # 100 |};
                  {| shipment_id := "s2"; sequence := 2;
                     location := "Location 2";
                     estimated_arrival := 29940 # 3600;
                     distance_from_previous := 5100 # 100 |} ];
              total_distance_km := 49900 # 100;
              total_time_hours := 832 # 100;
              fuel_savings_percent := 0 # 10 |})
  ∧ (inject_Z (50 * (Z.of_nat (length ["s1"; "s2"]) - 1)) <= 49900 # 100)%Q.
Proof.
  apply (optimize_route_distance_lower_bound ["s1"; "s2"] "Depot").
  vm_compute. reflexivity.
Defined.

(** ** The distance oracle is not a metric *)

(** X13. Between distinct locations the distance only depends on the sums
    of the character codes, so distinct locations with the same sum are at
    distance exactly 50; and the triangle inequality fails: from ["A"] to
    ["zzzc"] the distance is 450, by way of ["zzzzM"] it is 100 + 150. *)
Theorem distance_oracle_not_a_metric :
  (∀ a b a' b',
     a ≠ b → a' ≠ b' → sum_ord a = sum_ord a' → sum_ord b = sum_ord b' →
     _estimate_distance a b = _estimate_distance a' b')
  ∧ (∀ a b, a ≠ b → sum_ord a = sum_ord b → _estimate_distance a b = 50)
  ∧ ∃ a b c,
      _estimate_distance a b + _estimate_distance b c < _estimate_distance a c.
Proof.
  split; [|split].
  - intros a b a' b' Hab Hab' Ha Hb.
    rewrite !estimate_distance_distinct by assumption. now rewrite Ha, Hb.
  - intros a b Hab Hsum. rewrite estimate_distance_distinct by assumption.
    now rewrite Hsum, Z.sub_diag.
  - exists "A", "zzzzM", "zzzc". vm_compute. reflexivity.
Qed.

Lemma distance_oracle_not_a_metric_witness :
  _estimate_distance "ab" "ba" = 50.
Proof.
  apply distance_oracle_not_a_metric; [discriminate|reflexivity].
Defined.

(** ** What a request gets back *)

Lemma optimize_entry_ids stops start resp :
  optimize stops start = Ok resp →
  entry_ids <$> optimized_sequence resp ≡ₚ stop_ids <$> stops.
Proof.
  intros Hresp.
  destruct (optimize_cases stops start)
    as [[-> Heq]|[(s & -> & Heq)|[[Hlen _]|[Hlen _]]]].
  - rewrite Heq in Hresp. now injection Hresp as <-.
  - rewrite Heq in Hresp. now injection Hresp as <-.
  - destruct (optimize_format stops start) as (r & Hperm & Heq); [lia|].
    rewrite Heq in Hresp.
    apply format_route_response_Ok in Hresp as (_ & -> & _).
    now apply fmap_Permutation.
  - destruct (optimize_format stops start) as (r & Hperm & Heq); [lia|].
    rewrite Heq in Hresp.
    apply format_route_response_Ok in Hresp as (_ & -> & _).
    now apply fmap_Permutation.
Qed.

(** X14. In the answer to a request every shipment is listed once, with
    the location generated from its position in the request: the i-th
    identifier (counting from 1) with ["Location i"]. *)
Theorem optimize_route_keeps_assignment (shipment_ids : list string)
    (start_location : string) (body : response) :
  optimize_route shipment_ids start_location = Some (Http200 body) →
  entry_ids <$> optimized_sequence body
  ≡ₚ imap (λ i sid, (sid, "Location " +:+ str_of_nat (i + 1))) shipment_ids.
Proof.
  unfold optimize_route.
  destruct (optimize (request_stops shipment_ids) start_location)
    as [resp| |] eqn:Hresp; try discriminate.
  intros [= <-]. rewrite (optimize_entry_ids _ _ _ Hresp).
  unfold request_stops. rewrite fmap_imap.
  erewrite imap_ext; [reflexivity|].
  intros i sid _. unfold stop_ids. cbn.
  now rewrite request_stop_shipment_id, request_stop_location.
Qed.

Lemma optimize_route_keeps_assignment_witness :
  [("s1", "Location 1"); ("s2", "Location 2")]
  ≡ₚ imap (λ i sid, (sid, "Location " +:+ str_of_nat (i + 1))) ["s1"; "s2"].
Proof.
  apply (optimize_route_keeps_assignment ["s1"; "s2"] "Depot"
           {| optimized_sequence :=
                [ {| shipment_id := "s1"; sequence := 1;
                     location := "Location 1";
                     estimated_arrival := 448 # 60;
                     distance_from_previous := 44800 # 100 |};
                  {| shipment_id := "s2"; sequence := 2;
                     location := "Location 2";
                     estimated_arrival := 29940 # 3600;
                     distance_from_previous := 5100 # 100 |} ];
              total_distance_km := 49900 # 100;
              total_time_hours := 832 # 100;
              fuel_savings_percent := 0 # 10 |}).
  vm_compute. reflexivity.
Defined.

(** ** The running total of the greedy loop and the cost evaluator *)

Lemma end_location_cons start s r :
  end_location start (s :: r) = end_location (stop_location s) r.
Proof.
  unfold end_location. destruct r as [|t r]; [reflexivity|].
  rewrite !fmap_cons, last_cons_cons.
  destruct (last (stop_location t :: (stop_location <$> r))) eqn:Hlast;
    [reflexivity|].
  now apply last_None in Hlast.
Qed.

(** X15. The cost of a route made of two parts is the cost of the first
    part plus the cost of the second part walked from where the first one
    ends. *)
Theorem calculate_total_distance_app (r1 r2 : list stop) (start : string) :
  _calculate_total_distance (r1 ++ r2) start
  = _calculate_total_distance r1 start
    + _calculate_total_distance r2 (end_location start r1).
Proof.
  revert start. induction r1 as [|s r1 IH]; intros start.
  - change (end_location start []) with start.
    rewrite calculate_total_distance_nil. cbn [app]. lia.
  - rewrite <- app_comm_cons, !calculate_total_distance_cons, IH,
      end_location_cons. lia.
Qed.

Lemma nn_loop_end_location n st :
  (length (unvisited st) ≤ n)%nat →
  ∃ seg st',
    nn_loop n st = Ok st'
    ∧ route st' = route st ++ seg
    ∧ current_location st' = end_location (current_location st) seg.
Proof.
  revert st. induction n as [|n IH]; intros st Hlen.
  - destruct st as [[|s u] r c t]; cbn in Hlen; [|lia].
    exists [], (NNState [] r c t). cbn. now rewrite app_nil_r.
  - destruct (unvisited st) as [|s u] eqn:Hu.
    + exists [], st. cbn. rewrite Hu, app_nil_r. now repeat split.
    + destruct (nn_body_spec st) as (l1 & nearest & l2 & (Heq & _) & Hbody).
      { now rewrite Hu. }
      rewrite Hu in Heq. cbn [nn_loop]. rewrite Hu, Hbody. cbn [bind].
      match goal with |- context [nn_loop n ?s] =>
        destruct (IH s) as (seg & st' & Hloop & Hroute & Hend) end.
      { cbn. apply (f_equal length) in Heq.
        rewrite length_app in *. cbn in *. lia. }
      cbn in Hroute, Hend. exists (nearest :: seg), st'.
      split; [assumption|]. split.
      * now rewrite Hroute, <- app_assoc.
      * now rewrite end_location_cons.
Qed.

(** X16. When the greedy loop ends no stop is left unvisited, the total it
    has accumulated is the cost the evaluator gives for its route, and its
    current location is where that route ends. *)
Theorem nearest_neighbor_search_final_state (stops : list stop) (start : string) :
  ∃ st,
    nearest_neighbor_search stops start = Ok st
    ∧ unvisited st = []
    ∧ length (route st) = length stops
    ∧ total_distance st = _calculate_total_distance (route st) start
    ∧ current_location st = end_location start (route st).
Proof.
  destruct (nearest_neighbor_search_spec stops start)
    as (st & Hsearch & Hdone & Hperm & Htotal).
  destruct (nn_loop_end_location (length stops) (nn_init stops start))
    as (seg & st' & Hloop & Hroute & Hend); [reflexivity|].
  unfold nearest_neighbor_search in Hsearch.
  rewrite Hloop in Hsearch. injection Hsearch as ->.
  cbn in Hroute, Hend. subst seg. exists st.
  split; [exact Hloop|]. split; [assumption|].
  split; [now apply Permutation_length|]. now split.
Qed.
